(** * Mini-Torero-Server: bounded buffer and request pipeline

    A shallow embedding of [BoundedBuffer.cpp] and of the request
    handling part of [torero-serve.cpp], with the properties of the
    natural-language specification stated and settled against it.

    - Module [Buffer]: the [BoundedBuffer] class, its two critical sections
      and a thread-level model of the mutex and the two condition variables.
    - Module [Regex]: the fragment of [std::regex] the server uses.
    - Module [Serve]: [handleClient] and the functions it calls, over an
      abstract file system and a socket that records what was sent. *)

From Stdlib Require Import ZArith Lia String Ascii List Bool DecimalString.
From stdpp Require Import base list.
Import ListNotations.

(** * The bounded buffer *)

Module Buffer.

Local Open Scope Z_scope.

(** ** The class and its sequential code *)

(** [int] is a 32-bit two's complement integer; arithmetic on it is written
    with its wrap-around. *)
Definition INT_MAX : Z := 2147483647.
Definition wrap (z : Z) : Z := (z + 2 ^ 31) mod 2 ^ 32 - 2 ^ 31.

(** The data members of [class BoundedBuffer]. [std::queue<int>] is a list
    whose front is the head of the list; the mutex and the condition
    variables belong to the thread-level state below. *)
Record BoundedBuffer := mkBoundedBuffer {
  count : Z;
  head : Z;
  tail : Z;
  capacity : Z;
  buffer : list Z
}.

(** [BoundedBuffer::BoundedBuffer(int max_size)] *)
Definition new_BoundedBuffer (max_size : Z) : BoundedBuffer :=
  {| capacity := max_size; count := 0; head := 0; tail := 0; buffer := [] |}.

(** [putItem], from the end of the wait loop to the unlock:
    [count += 1; buffer.push(new_item); head += 1;
     if (head == capacity) head = 0;] *)
Definition putItem_locked (b : BoundedBuffer) (new_item : Z) : BoundedBuffer :=
  let count1 := wrap (count b + 1) in
  let buffer1 := (buffer b ++ [new_item])%list in
  let head1 := wrap (head b + 1) in
  let head2 := if head1 =? capacity b then 0 else head1 in
  {| count := count1; head := head2; tail := tail b;
     capacity := capacity b; buffer := buffer1 |}.

(** [getItem], from the end of the wait loop to the unlock:
    [count -= 1; int item = buffer.front(); buffer.pop(); tail += 1;
     if (tail == capacity) tail = 0;] and the returned [item].
    [front()] of an empty [std::queue] has no defined behaviour: [None]. *)
Definition getItem_locked (b : BoundedBuffer) : option (Z * BoundedBuffer) :=
  let count1 := wrap (count b - 1) in
  match buffer b with
  | [] => None
  | item :: buffer1 =>
      let tail1 := wrap (tail b + 1) in
      let tail2 := if tail1 =? capacity b then 0 else tail1 in
      Some (item, {| count := count1; head := head b; tail := tail2;
                     capacity := capacity b; buffer := buffer1 |})
  end.

(** ** Threads, the mutex and the condition variables *)

(** Where a thread stands with respect to the buffer. *)
Inductive pc :=
| Idle                (* outside putItem and getItem *)
| PutLock (x : Z)     (* putItem(x): blocked on the mutex, at entry or when
                         space_available.wait re-acquires it *)
| PutTest (x : Z)     (* holds the mutex, about to test count == capacity *)
| PutWait (x : Z)     (* inside space_available.wait, mutex released *)
| PutBody (x : Z)     (* holds the mutex, the wait loop has been left *)
| GetLock             (* getItem(): blocked on the mutex *)
| GetTest             (* holds the mutex, about to test count == 0 *)
| GetWait             (* inside data_available.wait, mutex released *)
| GetBody.            (* holds the mutex, the wait loop has been left *)

Record state := mkState {
  obj : BoundedBuffer;
  m : option nat;          (* the owner of the mutex *)
  threads : list pc
}.

Definition init (max_size : Z) (n : nat) : state :=
  {| obj := new_BoundedBuffer max_size; m := None; threads := replicate n Idle |}.

(** One scheduling decision. *)
Inductive action :=
| CallPut (t : nat) (x : Z)       (* thread t calls putItem(x) *)
| CallGet (t : nat)               (* thread t calls getItem() *)
| Acquire (t : nat)               (* t obtains the free mutex *)
| Cond (t : nat)                  (* t evaluates its while condition *)
| Wake (t : nat)                  (* a spurious wake-up of t *)
| Body (t : nat) (w : option nat).
  (* t runs its critical section up to the unlock and returns; its
     notify_one unblocks thread w *)

(** What an observer sees: the insertions and the values handed out. *)
Inductive event :=
| Inserted (x : Z)
| Returned (t : nat) (x : Z).

Inductive outcome :=
| Ok (s : state) (e : list event)
| Disabled      (* the action cannot happen in this state *)
| Undefined.    (* undefined behaviour of the C++ program *)

Definition waits_data (p : pc) : bool :=
  match p with GetWait => true | _ => false end.

Definition waits_space (p : pc) : bool :=
  match p with PutWait _ => true | _ => false end.

(** A thread that leaves [wait] has to lock the mutex again. *)
Definition woken (p : pc) : pc :=
  match p with
  | PutWait x => PutLock x
  | GetWait => GetLock
  | _ => p
  end.

(** [cv.notify_one()]: one of the threads waiting on [cv] is unblocked;
    nothing happens when there is none. *)
Definition notify_one (waits : pc -> bool) (w : option nat) (ths : list pc)
  : option (list pc) :=
  match w with
  | Some u =>
      match ths !! u with
      | Some p => if waits p then Some (<[u := woken p]> ths) else None
      | None => None
      end
  | None => if existsb waits ths then None else Some ths
  end.

Definition step (a : action) (s : state) : outcome :=
  match a with
  | CallPut t x =>
      match threads s !! t with
      | Some Idle =>
          Ok {| obj := obj s; m := m s; threads := <[t := PutLock x]> (threads s) |} []
      | _ => Disabled
      end
  | CallGet t =>
      match threads s !! t with
      | Some Idle =>
          Ok {| obj := obj s; m := m s; threads := <[t := GetLock]> (threads s) |} []
      | _ => Disabled
      end
  | Acquire t =>
      match m s, threads s !! t with
      | None, Some (PutLock x) =>
          Ok {| obj := obj s; m := Some t; threads := <[t := PutTest x]> (threads s) |} []
      | None, Some GetLock =>
          Ok {| obj := obj s; m := Some t; threads := <[t := GetTest]> (threads s) |} []
      | _, _ => Disabled
      end
  | Cond t =>
      match threads s !! t with
      | Some (PutTest x) =>
          if count (obj s) =? capacity (obj s)
          then Ok {| obj := obj s; m := None; threads := <[t := PutWait x]> (threads s) |} []
          else Ok {| obj := obj s; m := m s; threads := <[t := PutBody x]> (threads s) |} []
      | Some GetTest =>
          if count (obj s) =? 0
          then Ok {| obj := obj s; m := None; threads := <[t := GetWait]> (threads s) |} []
          else Ok {| obj := obj s; m := m s; threads := <[t := GetBody]> (threads s) |} []
      | _ => Disabled
      end
  | Wake t =>
      match threads s !! t with
      | Some (PutWait x) =>
          Ok {| obj := obj s; m := m s; threads := <[t := PutLock x]> (threads s) |} []
      | Some GetWait =>
          Ok {| obj := obj s; m := m s; threads := <[t := GetLock]> (threads s) |} []
      | _ => Disabled
      end
  | Body t w =>
      match threads s !! t with
      | Some (PutBody x) =>
          match notify_one waits_data w (threads s) with
          | Some ths =>
              Ok {| obj := putItem_locked (obj s) x; m := None;
                    threads := <[t := Idle]> ths |} [Inserted x]
          | None => Disabled
          end
      | Some GetBody =>
          match getItem_locked (obj s) with
          | None => Undefined
          | Some (item, b) =>
              match notify_one waits_space w (threads s) with
              | Some ths =>
                  Ok {| obj := b; m := None; threads := <[t := Idle]> ths |}
                     [Returned t item]
              | None => Disabled
              end
          end
      | _ => Disabled
      end
  end.

(** A schedule, run from state [s] with the events [tr] seen so far. *)
Fixpoint run (sched : list action) (s : state) (tr : list event) : outcome :=
  match sched with
  | [] => Ok s tr
  | a :: sched' =>
      match step a s with
      | Ok s' e => run sched' s' (tr ++ e)%list
      | Disabled => Disabled
      | Undefined => Undefined
      end
  end.

(** The values inserted and the values returned, in the order of the events. *)
Fixpoint inserted (tr : list event) : list Z :=
  match tr with
  | [] => []
  | Inserted x :: tr' => x :: inserted tr'
  | Returned _ _ :: tr' => inserted tr'
  end.

Fixpoint returned (tr : list event) : list Z :=
  match tr with
  | [] => []
  | Inserted _ :: tr' => returned tr'
  | Returned _ x :: tr' => x :: returned tr'
  end.

(** ** The reference queue of the specification *)

(** A FIFO queue as the specification describes it: [put] appends at the
    tail, [take] removes the head item. *)
Definition ref_put (q : list Z) (x : Z) : list Z := (q ++ [x])%list.

Definition ref_take (q : list Z) : option (Z * list Z) :=
  match q with
  | [] => None
  | x :: q' => Some (x, q')
  end.

(** The events [tr] replayed on the reference queue [q]: every insertion is
    a [ref_put], every returned value has to be the one [ref_take] gives. *)
Fixpoint ref_replay (tr : list event) (q : list Z) : option (list Z) :=
  match tr with
  | [] => Some q
  | Inserted x :: tr' => ref_replay tr' (ref_put q x)
  | Returned _ x :: tr' =>
      match ref_take q with
      | Some (y, q') => if y =? x then ref_replay tr' q' else None
      | None => None
      end
  end.

(** ** The invariant *)

(** The threads that are inside a critical section. *)
Definition holds (p : pc) : bool :=
  match p with
  | PutTest _ | PutBody _ | GetTest | GetBody => true
  | _ => false
  end.

(** What every reachable state satisfies, for a buffer of capacity [C] and
    the events [tr] observed so far. *)
Record Inv (C : Z) (s : state) (tr : list event) : Prop := mkInv {
  inv_capacity : capacity (obj s) = C;
  inv_count : 0 <= count (obj s) <= C;
  inv_length : count (obj s) = Z.of_nat (length (buffer (obj s)));
  inv_head : 0 <= head (obj s) < C;
  inv_tail : 0 <= tail (obj s) < C;
  inv_owner : forall t p, threads s !! t = Some p -> holds p = true -> m s = Some t;
  inv_put_body : forall t x, threads s !! t = Some (PutBody x) -> count (obj s) <> C;
  inv_get_body : forall t, threads s !! t = Some GetBody -> count (obj s) <> 0;
  inv_fifo : ref_replay tr [] = Some (buffer (obj s))
}.

(** A schedule that exercises both wait loops on a buffer of capacity 2
    shared by three threads: the third [putItem] of thread 0 finds the
    buffer full, waits and is notified by the first [getItem] of thread 1;
    the fourth [getItem] of thread 1 finds the buffer empty, waits and is
    notified by the [putItem] of thread 2. At the end thread 0 has left
    the wait loop of one more [putItem]. *)
Definition demo_sched : list action :=
  [ CallPut 0 7; Acquire 0; Cond 0; Body 0 None;
    CallPut 0 8; Acquire 0; Cond 0; Body 0 None;
    CallPut 0 9; Acquire 0; Cond 0;
    CallGet 1; Acquire 1; Cond 1; Body 1 (Some 0%nat);
    Acquire 0; Cond 0; Body 0 None;
    CallGet 1; Acquire 1; Cond 1; Body 1 None;
    CallGet 1; Acquire 1; Cond 1; Body 1 None;
    CallGet 1; Acquire 1; Cond 1;
    CallPut 2 5; Acquire 2; Cond 2; Body 2 (Some 1%nat);
    CallPut 0 6; Acquire 0; Cond 0 ].

End Buffer.

(** * Strings of bytes *)

Module Bytes.

Local Open Scope string_scope.
Local Open Scope nat_scope.

(** The first [n] bytes of [s], and what follows them. *)
Fixpoint take (n : nat) (s : string) : string :=
  match n, s with
  | S n', String c s' => String c (take n' s')
  | _, _ => ""
  end.

Fixpoint drop (n : nat) (s : string) : string :=
  match n, s with
  | S n', String _ s' => drop n' s'
  | _, _ => s
  end.

(** Whether byte [c] occurs in [s]. *)
Fixpoint occurs (c : ascii) (s : string) : bool :=
  match s with
  | "" => false
  | String d s' => Ascii.eqb d c || occurs c s'
  end.

(** Whether every byte of [s] satisfies [f]. *)
Fixpoint all (f : ascii -> bool) (s : string) : bool :=
  match s with
  | "" => true
  | String c s' => f c && all f s'
  end.

Definition CR : ascii := "013".
Definition LF : ascii := "010".
Definition TAB : ascii := "009".
Definition CRLF : string := String CR (String LF "").
(** A string that holds one double quote. *)
Definition DQ : string := String "034" "".

(** [std::to_string] of an unsigned integer, and [operator<<] of one. *)
Definition to_string (n : N) : string := NilZero.string_of_uint (N.to_uint n).

End Bytes.

(** * Regular expressions *)

(** The fragment of [std::regex] (ECMAScript grammar, classic locale) that
    the server's two patterns are written in. *)
Module Regex.

Local Open Scope string_scope.
Local Open Scope nat_scope.

Inductive regex :=
| Void                       (* matches nothing *)
| Eps                        (* matches the empty string *)
| Class (f : ascii -> bool)  (* one character of a class *)
| Cat (r1 r2 : regex)
| Alt (r1 r2 : regex)
| Star (r : regex).

(** A literal string. *)
Fixpoint Lit (s : string) : regex :=
  match s with
  | "" => Eps
  | String c s' => Cat (Class (Ascii.eqb c)) (Lit s')
  end.

(** A pattern written as the sequence of its atoms. *)
Definition seq (rs : list regex) : regex := fold_right Cat Eps rs.

(** The character classes [\d], [\w] and [\s]. *)
Definition is_digit (c : ascii) : bool :=
  let n := nat_of_ascii c in (48 <=? n) && (n <=? 57).

Definition is_alpha (c : ascii) : bool :=
  let n := nat_of_ascii c in
  ((65 <=? n) && (n <=? 90)) || ((97 <=? n) && (n <=? 122)).

Definition is_word (c : ascii) : bool :=
  is_alpha c || is_digit c || Ascii.eqb c "_".

Definition is_space (c : ascii) : bool :=
  let n := nat_of_ascii c in ((9 <=? n) && (n <=? 13)) || (n =? 32).

(** The strings a pattern matches as a whole. *)
Inductive Matches : regex -> string -> Prop :=
| MEps : Matches Eps ""
| MClass f c : f c = true -> Matches (Class f) (String c "")
| MCat r1 r2 s1 s2 :
    Matches r1 s1 -> Matches r2 s2 -> Matches (Cat r1 r2) (s1 ++ s2)
| MAltL r1 r2 s : Matches r1 s -> Matches (Alt r1 r2) s
| MAltR r1 r2 s : Matches r2 s -> Matches (Alt r1 r2) s
| MStar0 r : Matches (Star r) ""
| MStarS r s1 s2 :
    Matches r s1 -> Matches (Star r) s2 -> Matches (Star r) (s1 ++ s2).

(** Matching by derivatives. *)
Fixpoint nullable (r : regex) : bool :=
  match r with
  | Void => false
  | Eps => true
  | Class _ => false
  | Cat r1 r2 => nullable r1 && nullable r2
  | Alt r1 r2 => nullable r1 || nullable r2
  | Star _ => true
  end.

Fixpoint deriv (c : ascii) (r : regex) : regex :=
  match r with
  | Void => Void
  | Eps => Void
  | Class f => if f c then Eps else Void
  | Cat r1 r2 =>
      if nullable r1
      then Alt (Cat (deriv c r1) r2) (deriv c r2)
      else Cat (deriv c r1) r2
  | Alt r1 r2 => Alt (deriv c r1) (deriv c r2)
  | Star r1 => Cat (deriv c r1) (Star r1)
  end.

(** The longest prefix of [s] that [r] matches. *)
Fixpoint longest_prefix (r : regex) (s : string) : option string :=
  match s with
  | "" => if nullable r then Some "" else None
  | String c s' =>
      match longest_prefix (deriv c r) s' with
      | Some m => Some (String c m)
      | None => if nullable r then Some "" else None
      end
  end.

(** [std::regex_search]: the first match, [match[0]], if there is one. The
    match starts at the leftmost position where one exists. At that position
    it is the longest one: the server's patterns have no alternative, and
    their only repetitions are greedy and either end the pattern or are
    followed by a character outside of the repeated class, so that the
    match found by backtracking is the longest. *)
Fixpoint regex_search (s : string) (r : regex) : option string :=
  match longest_prefix r s with
  | Some m => Some m
  | None =>
      match s with
      | "" => None
      | String _ s' => regex_search s' r
      end
  end.

End Regex.

(** * The request pipeline *)

Module Serve.
Import Bytes Regex.

Local Open Scope string_scope.
Local Open Scope nat_scope.

Definition BUFFER_SIZE : nat := 2048.

(** ** The collaborators *)

(** What the server asks of the file system. Each field is what the call
    gives when it returns; the calls that do not return are [file_size] on
    a path for which [file_size_throws] holds, and the reads of a stream
    that [ifstream_open] leaves in an error state. *)
Record filesystem := mkFilesystem {
  ifstream_good : string -> bool;       (* std::ifstream f(name); f.good() *)
  is_directory : string -> bool;        (* fs::is_directory *)
  is_regular_file : string -> bool;     (* fs::is_regular_file *)
  file_size : string -> N;              (* fs::file_size *)
  file_bytes : string -> string;        (* what an ifstream of the file delivers *)
  directory_iterator : string -> list string
    (* the names of the entries of a directory, in iteration order *)
}.

(** [fs::file_size(filename)] throws [std::filesystem_error] on a directory
    and on a path at which there is nothing (nothing that opens, which is
    how the server itself tests for existence). *)
Definition file_size_throws (fs : filesystem) (filename : string) : bool :=
  is_directory fs filename || negb (ifstream_good fs filename).

(** A connected socket: [inbox] is what the client has sent, [sent] what
    the server has written so far, [closed] whether [close] was called.
    [send] and [recv] are taken to succeed (a failing one throws out of
    [handleClient]). *)
Record socket := mkSocket {
  inbox : string;
  sent : string;
  closed : bool
}.

(** [sendData]: the loop over [send] writes all of [data], in order. *)
Definition sendData (s : socket) (data : string) : socket :=
  {| inbox := inbox s; sent := sent s ++ data; closed := closed s |}.

(** [receiveData]: one [recv] into a buffer of [buff_size] bytes. *)
Definition receiveData (s : socket) (buff_size : nat) : string :=
  take buff_size (inbox s).

Definition close (s : socket) : socket :=
  {| inbox := inbox s; sent := sent s; closed := true |}.

(** ** Tokens of the request *)

(** [std::istringstream] with its state bits. *)
Record istringstream := mkStream {
  rest : string;
  eofbit : bool;
  failbit : bool
}.

Definition istringstream_of (s : string) : istringstream :=
  {| rest := s; eofbit := false; failbit := false |}.

(** The characters of [s] before the first [delim], and what follows that
    [delim] if there is one. *)
Fixpoint split_delim (delim : ascii) (s : string) : string * option string :=
  match s with
  | "" => ("", None)
  | String c s' =>
      if Ascii.eqb c delim then ("", Some s')
      else let (tok, r) := split_delim delim s' in (String c tok, r)
  end.

(** [getline(f, str, delim)]: on a stream that is not good, [str] is left
    as it was; the delimiter is extracted and dropped; reaching the end of
    the input sets [eofbit]. *)
Definition getline (f : istringstream) (str : string) (delim : ascii)
  : istringstream * string :=
  if eofbit f || failbit f
  then ({| rest := rest f; eofbit := eofbit f; failbit := true |}, str)
  else
    match split_delim delim (rest f) with
    | (tok, Some r) => ({| rest := r; eofbit := false; failbit := false |}, tok)
    | (tok, None) =>
        ({| rest := ""; eofbit := true;
            failbit := match tok with "" => true | _ => false end |}, tok)
    end.

(** ** Validation *)

(** The pattern of [validGET], GET\s[\w\-\./]*\sHTTP/\d\.\d in one group. *)
Definition path_class (c : ascii) : bool :=
  is_word c || Ascii.eqb c "-" || Ascii.eqb c "." || Ascii.eqb c "/".

Definition http_request_regex : regex :=
  seq [ Lit "GET"; Class is_space; Star (Class path_class); Class is_space;
        Lit "HTTP/"; Class is_digit; Class (Ascii.eqb "."); Class is_digit ].

Definition validGET (request : string) : bool :=
  match regex_search request http_request_regex with
  | Some _ => true
  | None => false
  end.

Definition fileExists (fs : filesystem) (filename : string) : bool :=
  ifstream_good fs filename.

Definition isDirectory (fs : filesystem) (filename : string) : bool :=
  is_directory fs filename.

(** ** Responses *)

Definition sendBad (client_sock : socket) : socket :=
  sendData client_sock ("HTTP/1.0 400 BAD REQUEST" ++ CRLF).

Definition sendNotFound (client_sock : socket) : socket :=
  sendData client_sock ("HTTP/1.0 404 NOT FOUND" ++ CRLF).

Definition sendOK (client_sock : socket) : socket :=
  sendData client_sock ("HTTP/1.0 200 OK" ++ CRLF).

(** The input file stream of [sendFile]: what is left to read, [eofbit],
    and [failed] for [failbit] or [badbit]. *)
Record ifstream := mkIfstream {
  unread : string;
  eof : bool;
  failed : bool
}.

(** [std::ifstream file(filename, std::ios::binary)]. A path that does not
    open leaves the stream with [failbit] set. A directory opens, but the
    first read of it is refused and sets [badbit]; as no byte is read
    before that, the stream is in an error state from the start here. In
    both cases [eofbit] is not set. *)
Definition ifstream_open (fs : filesystem) (filename : string) : ifstream :=
  {| unread := file_bytes fs filename;
     eof := false;
     failed := negb (ifstream_good fs filename) || is_directory fs filename |}.

(** [file.read(data, n)]: up to [n] bytes; [eofbit] and [failbit] are set
    when the file ends before [n] bytes were read. The second component is
    [data], of [gcount()] bytes. On a stream in an error state nothing is
    read and no bit changes. *)
Definition read (file : ifstream) (n : nat) : ifstream * string :=
  if failed file then (file, "")
  else
    let data := take n (unread file) in
    ({| unread := drop n (unread file);
        eof := String.length data <? n;
        failed := String.length data <? n |}, data).

Definition buff_size : nat := 4096.

(** [while(!file.eof()) { file.read(data, buff_size); sendData(...); }]
    A loop that is still running after [fuel] rounds gives [None]; on a
    stream in an error state it runs for ever, whatever the [fuel]. *)
Fixpoint sendFile_loop (fuel : nat) (file : ifstream) (client_sock : socket)
  : option socket :=
  if eof file then Some client_sock
  else
    match fuel with
    | O => None
    | S fuel' =>
        let (file', data) := read file buff_size in
        sendFile_loop fuel' file' (sendData client_sock data)
    end.

(** [sendFile]; [None] when it does not return. *)
Definition sendFile (fs : filesystem) (client_sock : socket) (filename : string)
  : option socket :=
  let file := ifstream_open fs filename in
  match sendFile_loop (S (String.length (unread file))) file client_sock with
  | Some s => Some (sendData s CRLF)
  | None => None
  end.

(** The pattern of [sendHeader]: a dot, then [\w] any number of times. *)
Definition rgx : regex := seq [ Class (Ascii.eqb "."); Star (Class is_word) ].

(** Whether [sendHeader] returns: with a match it calls [fs::file_size],
    whose exception is not caught and leaves [sendHeader] and its callers. *)
Definition sendHeader_returns (fs : filesystem) (filename : string) : bool :=
  match regex_search filename rgx with
  | Some _ => negb (file_size_throws fs filename)
  | None => true
  end.

(** [sendHeader], when it returns: what it has sent. What it prints on the
    server's console is left out. *)
Definition sendHeader (fs : filesystem) (client_sock : socket) (filename : string)
  : socket :=
  match regex_search filename rgx with
  | Some match0 =>
      let type :=
        if String.eqb match0 ".html" then "text/html"
        else if String.eqb match0 ".css" then "text/css"
        else if String.eqb match0 ".jpg" then "image/jpeg"
        else if String.eqb match0 ".gif" then "image/gif"
        else if String.eqb match0 ".png" then "image/png"
        else if String.eqb match0 ".pdf" then "application/pdf"
        else "text/plain" in
      let response :=
        "Content-Type: " ++ type ++ CRLF ++
        "Content-Length: " ++ to_string (file_size fs filename) ++ CRLF ++
        CRLF in
      sendData client_sock response
  | None => client_sock
  end.

(** The page of [sendError], which [sendHTML] builds too. *)
Definition error_page : string :=
  "<html>" ++ CRLF ++
  "<head>" ++ CRLF ++
  "<title> Page not found! </title>" ++ CRLF ++
  "</head>" ++ CRLF ++
  "<body> 404 Page Not Found! </body>" ++ CRLF ++
  "</html>" ++ CRLF.

Definition sendError (client_sock : socket) : socket :=
  let resp :=
    "Content-Type: " ++ "text/html" ++ CRLF ++
    "Content-Length: " ++ to_string (N.of_nat (String.length error_page)) ++ CRLF ++
    CRLF ++ error_page ++ CRLF in
  sendData client_sock resp.

(** [item.path()] of an entry [name] met while iterating over directory
    [dir]: the two joined by [operator/], which puts a separator between
    them unless [dir] ends with one. *)
Fixpoint ends_with_slash (s : string) : bool :=
  match s with
  | "" => false
  | String c "" => Ascii.eqb c "/"
  | String _ s' => ends_with_slash s'
  end.

Definition item_path (dir name : string) : string :=
  if ends_with_slash dir then dir ++ name else dir ++ "/" ++ name.

(** The loop of [sendHTML] over the entries that are left, with the page
    written so far in [stream]; [None] when it does not return. *)
Fixpoint sendHTML_loop (fs : filesystem) (client_sock : socket)
    (filename : string) (items : list string) (stream : string)
  : option socket :=
  match items with
  | [] =>
      let html_page :=
        stream ++ "</ul>" ++ CRLF ++ "</body>" ++ CRLF ++ "</html>" ++ CRLF in
      let resp2 :=
        "Content-Type: " ++ "text/html" ++ CRLF ++
        "Content-Length: " ++ to_string (N.of_nat (String.length html_page)) ++ CRLF ++
        CRLF ++ html_page ++ CRLF in
      Some (sendData client_sock resp2)
  | name :: items' =>
      if String.eqb name "index.html"
      then
        if sendHeader_returns fs (item_path filename name)
        then sendFile fs (sendHeader fs client_sock (item_path filename name))
                      (item_path filename name)
        else None
      else if is_regular_file fs (filename ++ name)
      then sendHTML_loop fs client_sock filename items'
             (stream ++ String TAB "<li><a href=" ++ DQ ++ name ++ DQ ++ ">"
                     ++ name ++ "</a></li>" ++ CRLF)
      else if is_directory fs (filename ++ name)
      then sendHTML_loop fs client_sock filename items'
             (stream ++ String TAB "<li><a href=" ++ DQ ++ name ++ "/" ++ DQ ++ ">"
                     ++ name ++ "/</a></li>" ++ CRLF)
      else sendHTML_loop fs client_sock filename items' stream
  end.

Definition sendHTML (fs : filesystem) (client_sock : socket) (filename : string)
  : option socket :=
  if negb (isDirectory fs filename) && fileExists fs filename
  then
    let resp :=
      "Content-Type: " ++ "text/html" ++ CRLF ++
      "Content-Length: " ++ to_string (N.of_nat (String.length error_page)) ++ CRLF ++
      CRLF ++ error_page ++ CRLF in
    Some (sendData client_sock resp)
  else
    let stream :=
      "<html>" ++ CRLF ++
      "<head>" ++ "<title></title>" ++ "</head>" ++ CRLF ++
      "<body>" ++ CRLF ++
      "<ul>" ++ CRLF in
    sendHTML_loop fs client_sock filename (directory_iterator fs filename) stream.

(** ** The pipeline *)

(** [handleClient]; [None] when it does not return: the exception of
    [fs::file_size] leaves it, or [sendFile] runs for ever. *)
Definition handleClient (fs : filesystem) (client_sock : socket) (root : string)
  : option socket :=
  let request_string := receiveData client_sock BUFFER_SIZE in
  if negb (validGET request_string)
  then Some (sendBad client_sock)
  else
    let f := istringstream_of request_string in
    let '(f, filename) := getline f "" " " in
    let '(f, filename) := getline f filename " " in
    let root := root ++ filename in
    if negb (fileExists fs root) && negb (isDirectory fs root)
    then Some (sendError (sendNotFound client_sock))
    else
      let client_sock := sendOK client_sock in
      match
        (if isDirectory fs root then sendHTML fs client_sock root
         else if fileExists fs root
              then
                if sendHeader_returns fs root
                then sendFile fs (sendHeader fs client_sock root) root
                else None
              else Some client_sock)
      with
      | Some client_sock => Some (close client_sock)
      | None => None
      end.

(** ** A file system to run the server on *)

Inductive node :=
| File (bytes : string)
| Dir (entries : list string)
| Special.        (* neither a regular file nor a directory *)

Fixpoint lookup_node (tree : list (string * node)) (path : string) : option node :=
  match tree with
  | [] => None
  | (p, n) :: tree' => if String.eqb p path then Some n else lookup_node tree' path
  end.

(** The file system that holds the [tree], each node under the very path
    strings listed for it. An [ifstream] opens whatever exists. *)
Definition fs_of (tree : list (string * node)) : filesystem :=
  {| ifstream_good p :=
       match lookup_node tree p with Some _ => true | None => false end;
     is_directory p :=
       match lookup_node tree p with Some (Dir _) => true | _ => false end;
     is_regular_file p :=
       match lookup_node tree p with Some (File _) => true | _ => false end;
     file_size p :=
       match lookup_node tree p with
       | Some (File b) => N.of_nat (String.length b)
       | _ => 0%N
       end;
     file_bytes p :=
       match lookup_node tree p with Some (File b) => b | _ => "" end;
     directory_iterator p :=
       match lookup_node tree p with Some (Dir es) => es | _ => [] end |}.

Definition connect (request : string) : socket :=
  {| inbox := request; sent := ""; closed := false |}.

Definition text42 : string := "The quick brown fox jumps over the dog 42" ++ String LF "".

Definition demo_fs : filesystem :=
  fs_of [ ("www", Dir ["index.html"; "subdir"; "README"; "dev"]);
          ("www/", Dir ["index.html"; "subdir"; "README"; "dev"]);
          ("www/index.html", File text42);
          ("www/README", File "read me");
          ("www/subdir", Dir ["a.txt"; "b"]);
          ("www/subdir/", Dir ["a.txt"; "b"]);
          ("www/subdir/a.txt", File "aaa");
          ("www/subdir/b", Dir []);
          ("www/subdir/b/", Dir []);
          ("www/dev", Dir ["null"]);
          ("www/dev/", Dir ["null"]);
          ("www/dev/null", Special);
          ("./www/index.html", File text42) ].

(** Two directories whose entry [index.html] cannot be served: in [site]
    it is itself a directory, in [void] the entry is listed but nothing
    opens under its path. *)
Definition odd_fs : filesystem :=
  fs_of [ ("site", Dir ["index.html"]);
          ("site/", Dir ["index.html"]);
          ("site/index.html", Dir []);
          ("void", Dir ["a.txt"; "index.html"]);
          ("void/", Dir ["a.txt"; "index.html"]);
          ("void/a.txt", File "aaa") ].

(** A request whose separator after GET is a tab. *)
Definition tab_request : string := "GET" ++ String TAB "/ HTTP/1.0".

End Serve.

(** * The vocabulary of the specification *)

Module Spec.
Import Bytes Regex Serve.

Local Open Scope string_scope.

(** The path token of a request, as [handleClient] extracts it: what the
    second [getline] leaves in [filename]. *)
Definition request_path (request : string) : string :=
  let (f, filename) := getline (istringstream_of request) "" " " in
  snd (getline f filename " ").

(** [s] contains [m] as a substring. *)
Definition contains (s m : string) : Prop := exists pre post, s = pre ++ m ++ post.

(** A request line [GET<sep><path><sep>HTTP/<digit>.<digit>], with the path
    over word characters, '-', '.' and '/', and each separator one
    character of the class [sep]. *)
Definition request_line (sep : ascii -> bool) (m : string) : Prop :=
  exists ws1 path ws2 d1 d2,
    m = "GET" ++ String ws1 path ++ String ws2 "HTTP/"
              ++ String d1 (String "." (String d2 "")) /\
    sep ws1 = true /\ all path_class path = true /\ sep ws2 = true /\
    is_digit d1 = true /\ is_digit d2 = true.

(** The same shape as a pattern. *)
Definition request_regex (sep : ascii -> bool) : regex :=
  seq [ Lit "GET"; Class sep; Star (Class path_class); Class sep;
        Lit "HTTP/"; Class is_digit; Class (Ascii.eqb "."); Class is_digit ].

(** The table of content types of the specification, by extension. *)
Definition content_type (ext : string) : string :=
  if String.eqb ext "html" then "text/html"
  else if String.eqb ext "css" then "text/css"
  else if String.eqb ext "jpg" then "image/jpeg"
  else if String.eqb ext "gif" then "image/gif"
  else if String.eqb ext "png" then "image/png"
  else if String.eqb ext "pdf" then "application/pdf"
  else "text/plain".

(** A response with headers: status line, [Content-Type], a
    [Content-Length] that declares the length of [body], the blank line,
    [body], and the two bytes that end the transaction. *)
Definition framed (status type body : string) : string :=
  status ++ CRLF ++
  "Content-Type: " ++ type ++ CRLF ++
  "Content-Length: " ++ to_string (N.of_nat (String.length body)) ++ CRLF ++
  CRLF ++ body ++ CRLF.

(** The same with the declared length given apart. *)
Definition with_headers (status type : string) (declared : N) (body : string)
  : string :=
  status ++ CRLF ++
  "Content-Type: " ++ type ++ CRLF ++
  "Content-Length: " ++ to_string declared ++ CRLF ++
  CRLF ++ body ++ CRLF.

(** The content type [sendHeader] picks for the match [match0]. *)
Definition header_type (match0 : string) : string :=
  if String.eqb match0 ".html" then "text/html"
  else if String.eqb match0 ".css" then "text/css"
  else if String.eqb match0 ".jpg" then "image/jpeg"
  else if String.eqb match0 ".gif" then "image/gif"
  else if String.eqb match0 ".png" then "image/png"
  else if String.eqb match0 ".pdf" then "application/pdf"
  else "text/plain".

Definition content_types : list string :=
  [ "text/html"; "text/css"; "image/jpeg"; "image/gif"; "image/png";
    "application/pdf"; "text/plain" ].

(** A line of the listing for the entry [name] of directory [dir]: the
    entry is looked up under [dir ++ name]. *)
Definition listing_line (fs : filesystem) (dir name : string) : string :=
  if is_regular_file fs (dir ++ name)
  then String TAB "<li><a href=" ++ DQ ++ name ++ DQ ++ ">" ++ name ++ "</a></li>" ++ CRLF
  else if is_directory fs (dir ++ name)
  then String TAB "<li><a href=" ++ DQ ++ name ++ "/" ++ DQ ++ ">" ++ name ++ "/</a></li>" ++ CRLF
  else "".

Fixpoint listing_lines (fs : filesystem) (dir : string) (names : list string) : string :=
  match names with
  | [] => ""
  | name :: names' => listing_line fs dir name ++ listing_lines fs dir names'
  end.

Definition listing_page (fs : filesystem) (dir : string) (names : list string) : string :=
  "<html>" ++ CRLF ++
  "<head>" ++ "<title></title>" ++ "</head>" ++ CRLF ++
  "<body>" ++ CRLF ++
  "<ul>" ++ CRLF ++
  listing_lines fs dir names ++
  "</ul>" ++ CRLF ++ "</body>" ++ CRLF ++ "</html>" ++ CRLF.

Fixpoint has_index (names : list string) : bool :=
  match names with
  | [] => false
  | name :: names' => String.eqb name "index.html" || has_index names'
  end.

End Spec.

(** * Counting threads *)

Module Counting.
Import Buffer.

(** The number of threads whose program counter satisfies [f]. *)
Fixpoint count_pc (f : pc -> bool) (ths : list pc) : nat :=
  match ths with
  | [] => O
  | p :: ths' => (if f p then 1 else 0) + count_pc f ths'
  end.

(** The calls of [getItem] that are under way and not blocked in
    [data_available.wait]; the same for [putItem] and [space_available]. *)
Definition get_running (p : pc) : bool :=
  match p with
  | GetLock | GetTest | GetBody => true
  | _ => false
  end.

Definition put_running (p : pc) : bool :=
  match p with
  | PutLock _ | PutTest _ | PutBody _ => true
  | _ => false
  end.

(** No wake-up is lost: while a consumer is blocked, there are at least as
    many running [getItem] calls as there are items; while a producer is
    blocked, at least as many running [putItem] calls as free slots. *)
Record Awake (s : state) : Prop := mkAwake {
  awake_get :
    (0 < count_pc waits_data (threads s))%nat ->
    (count (obj s) <= Z.of_nat (count_pc get_running (threads s)))%Z;
  awake_put :
    (0 < count_pc waits_space (threads s))%nat ->
    (capacity (obj s) - count (obj s)
     <= Z.of_nat (count_pc put_running (threads s)))%Z;
  awake_ring :
    (capacity (obj s) | head (obj s) - tail (obj s) - count (obj s))%Z
}.

(** What holds of a buffer made with capacity 0. *)
Record Shut (s : state) (tr : list event) : Prop := mkShut {
  shut_capacity : capacity (obj s) = 0%Z;
  shut_count : count (obj s) = 0%Z;
  shut_buffer : buffer (obj s) = [];
  shut_put : forall (t : nat) x, threads s !! t <> Some (PutBody x);
  shut_get : forall t : nat, threads s !! t <> Some GetBody;
  shut_trace : tr = []
}.

End Counting.

(** * Sending over a socket that takes part of the data *)

Module Net.
Import Bytes.

Local Open Scope string_scope.

(** How the loop of [sendData] ends, with what has gone out on the wire. *)
Inductive send_outcome :=
| Delivered (wire : string)               (* the loop is left: returned *)
| Raised (wire : string)                  (* std::system_error thrown *)
| Looping (wire : string) (todo : string).
  (* still in the loop after the calls that were looked at *)

(** [sendData(fd, data, data_length)]:
    [while (data_length > 0) { n = send(fd, data, data_length, 0);
       if (n == -1) throw ...; data_length -= n; data += n; }]
    [send] is the operating system's: [rets] lists what its successive
    calls return, and a call that returns [n] has taken the first [n]
    bytes of the buffer it was given. *)
Fixpoint sendData_loop (rets : list Z) (data : string) (wire : string)
  : send_outcome :=
  match data with
  | "" => Delivered wire
  | String _ _ =>
      match rets with
      | [] => Looping wire data
      | num_bytes_sent :: rets' =>
          if (num_bytes_sent =? -1)%Z then Raised wire
          else sendData_loop rets'
                 (drop (Z.to_nat num_bytes_sent) data)
                 (wire ++ take (Z.to_nat num_bytes_sent) data)
      end
  end.

(** The longest prefix of [s] made of characters of the class [f]. *)
Fixpoint take_while (f : ascii -> bool) (s : string) : string :=
  match s with
  | "" => ""
  | String c s' => if f c then String c (take_while f s') else ""
  end.

(** [n] bytes that are no part of a request line. *)
Fixpoint filler (n : nat) : string :=
  match n with
  | O => ""
  | S n' => String "x" (filler n')
  end.

End Net.

(** * Facts about the bounded buffer *)

Module BufferFacts.
Import Buffer.

Local Open Scope Z_scope.

Lemma wrap_small z : - 2 ^ 31 <= z < 2 ^ 31 -> wrap z = z.
Proof.
  intros Hz. unfold wrap.
  rewrite Z.mod_small; lia.
Qed.

Lemma inserted_app tr1 tr2 : inserted (tr1 ++ tr2) = (inserted tr1 ++ inserted tr2)%list.
Proof.
  induction tr1 as [|[x|t x] tr1 IH]; simpl; [reflexivity | f_equal; exact IH | exact IH].
Qed.

Lemma returned_app tr1 tr2 : returned (tr1 ++ tr2) = (returned tr1 ++ returned tr2)%list.
Proof.
  induction tr1 as [|[x|t x] tr1 IH]; simpl; [reflexivity | exact IH | f_equal; exact IH].
Qed.

Lemma ref_replay_app tr1 tr2 : forall q,
  ref_replay (tr1 ++ tr2) q =
  match ref_replay tr1 q with
  | Some q1 => ref_replay tr2 q1
  | None => None
  end.
Proof.
  induction tr1 as [|[x|t x] tr1 IH]; intros q; simpl; [reflexivity|apply IH|].
  destruct (ref_take q) as [[y q']|]; [|reflexivity].
  destruct (y =? x); [apply IH|reflexivity].
Qed.

(** A trace the reference queue accepts hands out the inserted values in
    their order, and what it has not handed out is what the queue holds. *)
Lemma ref_replay_prefix tr : forall q0 q,
  ref_replay tr q0 = Some q ->
  (q0 ++ inserted tr = returned tr ++ q)%list.
Proof.
  induction tr as [|[x|t x] tr IH]; intros q0 q H; simpl in *.
  - injection H as <-. rewrite app_nil_r. reflexivity.
  - apply IH in H. unfold ref_put in H. rewrite <- app_assoc in H. exact H.
  - destruct q0 as [|y q0]; simpl in H; [discriminate|].
    destruct (Z.eqb_spec y x) as [->|]; [|discriminate].
    apply IH in H. simpl. f_equal. exact H.
Qed.

Lemma lookup_set (ths : list pc) t p u q :
  <[t := p]> ths !! u = Some q ->
  (u = t /\ q = p) \/ (u <> t /\ ths !! u = Some q).
Proof.
  intros H. destruct (decide (u = t)) as [->|Hne].
  - left. split; [reflexivity|].
    assert (Hlt : (t < length ths)%nat).
    { apply lookup_lt_Some in H. rewrite length_insert in H. exact H. }
    rewrite list_lookup_insert_eq in H by exact Hlt. congruence.
  - right. split; [exact Hne|].
    rewrite list_lookup_insert_ne in H by congruence. exact H.
Qed.

Lemma init_inv C n : 1 <= C -> Inv C (init C n) [].
Proof.
  intros HC. constructor; simpl; try lia; try reflexivity; intros;
    match goal with
    | H : replicate _ _ !! _ = Some _ |- _ =>
        apply lookup_replicate in H as [? _]; subst; discriminate
    end.
Qed.

(** A notification only turns a waiting thread into one that asks for the
    mutex: the threads inside a critical section are the same as before. *)
Lemma notify_one_holds waits w ths ths' u q :
  (forall p, waits p = true -> holds (woken p) = false) ->
  notify_one waits w ths = Some ths' ->
  ths' !! u = Some q -> holds q = true -> ths !! u = Some q.
Proof.
  intros Hw Hn Hu Hq. unfold notify_one in Hn.
  destruct w as [v|].
  - destruct (ths !! v) as [p|] eqn:Hv; [|discriminate].
    destruct (waits p) eqn:Hp; [|discriminate].
    injection Hn as <-.
    apply lookup_set in Hu as [[-> ->]|[_ Hu]]; [|exact Hu].
    rewrite (Hw _ Hp) in Hq. discriminate.
  - destruct (existsb waits ths); [discriminate|]. congruence.
Qed.

Lemma waits_data_woken p : waits_data p = true -> holds (woken p) = false.
Proof. destruct p; simpl; congruence. Qed.

Lemma waits_space_woken p : waits_space p = true -> holds (woken p) = false.
Proof. destruct p; simpl; congruence. Qed.

(** After a thread that owned the mutex has left it, nobody is inside. *)
Lemma nobody_inside (s : state) (t : nat) (p : pc) (ths : list pc) :
  (forall t p, threads s !! t = Some p -> holds p = true -> m s = Some t) ->
  threads s !! t = Some p -> holds p = true ->
  (forall (u : nat) q, ths !! u = Some q -> holds q = true -> threads s !! u = Some q) ->
  forall p' (u : nat) q, holds p' = false ->
  <[t := p']> ths !! u = Some q -> holds q = true -> False.
Proof.
  intros Hown Ht Hp Hths p' u q Hp' Hu Hq.
  apply lookup_set in Hu as [[-> ->]|[Hne Hu]]; [congruence|].
  apply Hths in Hu; [|exact Hq].
  pose proof (Hown _ _ Ht Hp) as H1. pose proof (Hown _ _ Hu Hq) as H2.
  congruence.
Qed.

(** The sequential code keeps the fields within their ranges. *)
Lemma putItem_locked_inv C b x :
  1 <= C <= INT_MAX -> capacity b = C ->
  0 <= count b <= C -> count b <> C ->
  count b = Z.of_nat (length (buffer b)) -> 0 <= head b < C ->
  let b' := putItem_locked b x in
  capacity b' = C /\ count b' = count b + 1 /\
  count b' = Z.of_nat (length (buffer b')) /\
  0 <= head b' < C /\ tail b' = tail b /\ buffer b' = (buffer b ++ [x])%list.
Proof.
  unfold INT_MAX. intros HC Hcap Hcnt Hne Hlen Hhd. simpl.
  rewrite !wrap_small by lia. rewrite length_app. simpl.
  repeat split; try lia.
  - destruct (Z.eqb_spec (head b + 1) (capacity b)); lia.
  - destruct (Z.eqb_spec (head b + 1) (capacity b)); lia.
Qed.

Lemma getItem_locked_inv C b :
  1 <= C <= INT_MAX -> capacity b = C ->
  0 <= count b <= C -> count b <> 0 ->
  count b = Z.of_nat (length (buffer b)) -> 0 <= tail b < C ->
  exists item b', getItem_locked b = Some (item, b') /\
    capacity b' = C /\ count b' = count b - 1 /\
    count b' = Z.of_nat (length (buffer b')) /\
    0 <= tail b' < C /\ head b' = head b /\ buffer b = item :: buffer b'.
Proof.
  unfold INT_MAX. intros HC Hcap Hcnt Hne Hlen Htl. unfold getItem_locked.
  destruct (buffer b) as [|item rest] eqn:Hbuf; simpl in Hlen; [lia|].
  exists item. eexists. split; [reflexivity|]. simpl.
  rewrite !wrap_small by lia.
  repeat split; try lia.
  - destruct (Z.eqb_spec (tail b + 1) (capacity b)); lia.
  - destruct (Z.eqb_spec (tail b + 1) (capacity b)); lia.
Qed.

(** Case analysis on a thread that is looked up after one program counter
    has been overwritten. *)
Ltac updated H :=
  apply lookup_set in H as [[-> ?]|[? H]]; [try discriminate; subst|].

(** Every step keeps the invariant. *)
Lemma step_inv C a s tr s' e :
  1 <= C <= INT_MAX -> Inv C s tr -> step a s = Ok s' e -> Inv C s' (tr ++ e).
Proof.
  intros HC [Hcap Hcnt Hlen Hhd Htl Hown Hput Hget Hfifo] Hstep.
  destruct a as [t x|t|t|t|t|t w]; simpl in Hstep.
  - (* CallPut *)
    destruct (threads s !! t) as [[]|] eqn:Ht; try discriminate.
    injection Hstep as <- <-. rewrite app_nil_r.
    constructor; simpl; trivial.
    + intros u q Hu Hq. updated Hu; [discriminate|]. eauto.
    + intros u y Hu. updated Hu. eauto.
    + intros u Hu. updated Hu. eauto.
  - (* CallGet *)
    destruct (threads s !! t) as [[]|] eqn:Ht; try discriminate.
    injection Hstep as <- <-. rewrite app_nil_r.
    constructor; simpl; trivial.
    + intros u q Hu Hq. updated Hu; [discriminate|]. eauto.
    + intros u y Hu. updated Hu. eauto.
    + intros u Hu. updated Hu. eauto.
  - (* Acquire *)
    destruct (m s) as [o|] eqn:Hm; [discriminate|].
    destruct (threads s !! t) as [[]|] eqn:Ht; try discriminate;
      injection Hstep as <- <-; rewrite app_nil_r;
      constructor; simpl; trivial.
    + intros u q Hu Hq. updated Hu; [reflexivity|].
      specialize (Hown _ _ Hu Hq). congruence.
    + intros u y Hu. updated Hu. eauto.
    + intros u Hu. updated Hu. eauto.
    + intros u q Hu Hq. updated Hu; [reflexivity|].
      specialize (Hown _ _ Hu Hq). congruence.
    + intros u y Hu. updated Hu. eauto.
    + intros u Hu. updated Hu. eauto.
  - (* Cond *)
    destruct (threads s !! t) as [[]|] eqn:Ht; try discriminate.
    + destruct (Z.eqb_spec (count (obj s)) (capacity (obj s))) as [Heq|Hne];
        injection Hstep as <- <-; rewrite app_nil_r;
        constructor; simpl; trivial.
      * intros u q Hu Hq. exfalso.
        eapply (nobody_inside s t _ (threads s) Hown Ht); eauto; reflexivity.
      * intros u y Hu. updated Hu. eauto.
      * intros u Hu. updated Hu. eauto.
      * intros u q Hu Hq. updated Hu; [|eauto].
        eapply Hown; [exact Ht|reflexivity].
      * intros u y Hu. updated Hu; [congruence|eauto].
      * intros u Hu. updated Hu. eauto.
    + destruct (Z.eqb_spec (count (obj s)) 0) as [Heq|Hne];
        injection Hstep as <- <-; rewrite app_nil_r;
        constructor; simpl; trivial.
      * intros u q Hu Hq. exfalso.
        eapply (nobody_inside s t _ (threads s) Hown Ht); eauto; reflexivity.
      * intros u y Hu. updated Hu. eauto.
      * intros u Hu. updated Hu. eauto.
      * intros u q Hu Hq. updated Hu; [|eauto].
        eapply Hown; [exact Ht|reflexivity].
      * intros u y Hu. updated Hu. eauto.
  - (* Wake *)
    destruct (threads s !! t) as [[]|] eqn:Ht; try discriminate;
      injection Hstep as <- <-; rewrite app_nil_r;
      constructor; simpl; trivial.
    + intros u q Hu Hq. updated Hu; [discriminate|]. eauto.
    + intros u y Hu. updated Hu. eauto.
    + intros u Hu. updated Hu. eauto.
    + intros u q Hu Hq. updated Hu; [discriminate|]. eauto.
    + intros u y Hu. updated Hu. eauto.
    + intros u Hu. updated Hu. eauto.
  - (* Body *)
    destruct (threads s !! t) as [[]|] eqn:Ht; try discriminate.
    + (* the critical section of putItem *)
      destruct (notify_one waits_data w (threads s)) as [ths|] eqn:Hn; [|discriminate].
      injection Hstep as <- <-.
      pose proof (Hput _ _ Ht) as Hne.
      destruct (putItem_locked_inv C (obj s) x HC Hcap Hcnt Hne Hlen Hhd)
        as (Hcap' & Hcnt' & Hlen' & Hhd' & Htl' & Hbuf').
      assert (Hnone : forall (u : nat) q,
                 <[t := Idle]> ths !! u = Some q -> holds q = true -> False).
      { intros u q. eapply (nobody_inside s t _ ths Hown Ht); [reflexivity| |reflexivity].
        intros v r. eapply notify_one_holds; [exact waits_data_woken|exact Hn]. }
      constructor; simpl threads; simpl m; simpl obj; trivial; try lia;
        try (intros u q Hu; exfalso; eapply Hnone; [exact Hu|reflexivity]).
      * intros u q Hu Hq. exfalso. eauto.
      * rewrite ref_replay_app, Hfifo, Hbuf'. reflexivity.
    + (* the critical section of getItem *)
      pose proof (Hget _ Ht) as Hne.
      destruct (getItem_locked_inv C (obj s) HC Hcap Hcnt Hne Hlen Htl)
        as (item & b' & Hg & Hcap' & Hcnt' & Hlen' & Htl' & Hhd' & Hbuf').
      rewrite Hg in Hstep.
      destruct (notify_one waits_space w (threads s)) as [ths|] eqn:Hn; [|discriminate].
      injection Hstep as <- <-.
      assert (Hnone : forall (u : nat) q,
                 <[t := Idle]> ths !! u = Some q -> holds q = true -> False).
      { intros u q. eapply (nobody_inside s t _ ths Hown Ht); [reflexivity| |reflexivity].
        intros v r. eapply notify_one_holds; [exact waits_space_woken|exact Hn]. }
      constructor; simpl threads; simpl m; simpl obj; trivial; try lia;
        try (intros u Hu; exfalso; eapply Hnone; [exact Hu|reflexivity]).
      * intros u q Hu Hq. exfalso. eauto.
      * rewrite ref_replay_app, Hfifo, Hbuf'. simpl.
        rewrite Z.eqb_refl. reflexivity.
Qed.

(** The critical section of [getItem] never reads an empty queue. *)
Lemma step_defined C a s tr :
  1 <= C <= INT_MAX -> Inv C s tr -> step a s <> Undefined.
Proof.
  intros HC [Hcap Hcnt Hlen Hhd Htl Hown Hput Hget Hfifo].
  destruct a as [t x|t|t|t|t|t w]; simpl;
    try (repeat case_match; discriminate).
  destruct (threads s !! t) as [p|] eqn:Ht; [|discriminate].
  destruct p; try discriminate.
  - destruct (notify_one waits_data w (threads s)); discriminate.
  - pose proof (Hget _ Ht) as Hne.
    destruct (getItem_locked_inv C (obj s) HC Hcap Hcnt Hne Hlen Htl)
      as (item & b' & Hg & _).
    rewrite Hg. destruct (notify_one waits_space w (threads s)); discriminate.
Qed.

Lemma run_inv C sched : forall s tr s' tr',
  1 <= C <= INT_MAX -> Inv C s tr -> run sched s tr = Ok s' tr' -> Inv C s' tr'.
Proof.
  induction sched as [|a sched IH]; intros s tr s' tr' HC Hinv Hrun; simpl in Hrun.
  - injection Hrun as <- <-. exact Hinv.
  - destruct (step a s) as [s1 e| |] eqn:Hstep; try discriminate.
    eapply IH; [exact HC| |exact Hrun].
    eapply step_inv; eauto.
Qed.

Lemma run_defined C sched : forall s tr,
  1 <= C <= INT_MAX -> Inv C s tr -> run sched s tr <> Undefined.
Proof.
  induction sched as [|a sched IH]; intros s tr HC Hinv; simpl.
  - discriminate.
  - destruct (step a s) as [s1 e| |] eqn:Hstep.
    + apply IH; [exact HC|]. eapply step_inv; eauto.
    + discriminate.
    + exfalso. eapply step_defined; eauto.
Qed.

(** The wait loops: a full buffer sends [putItem] into
    [space_available.wait], an empty one sends [getItem] into
    [data_available.wait]; both give the mutex up. *)
Lemma cond_full_waits (s : state) (t : nat) x :
  threads s !! t = Some (PutTest x) -> count (obj s) = capacity (obj s) ->
  step (Cond t) s =
  Ok {| obj := obj s; m := None; threads := <[t := PutWait x]> (threads s) |} [].
Proof. intros Ht Hc. simpl. rewrite Ht, Hc, Z.eqb_refl. reflexivity. Qed.

Lemma cond_empty_waits (s : state) (t : nat) :
  threads s !! t = Some GetTest -> count (obj s) = 0 ->
  step (Cond t) s =
  Ok {| obj := obj s; m := None; threads := <[t := GetWait]> (threads s) |} [].
Proof. intros Ht Hc. simpl. rewrite Ht, Hc. reflexivity. Qed.

(** ** The properties of the specification *)

(** C1. For every capacity C >= 1 (an [int]) and every interleaving of
    putItem/getItem calls by any number of threads, [count] stays within
    [0, C]; a thread that has left the wait loop of putItem finds
    [count < C] when it increments, and a thread that has left the wait
    loop of getItem finds [count > 0] when it decrements. *)
Theorem count_within_capacity (C : Z) (n : nat) (sched : list action)
    (s : state) (tr : list event) :
  1 <= C <= INT_MAX ->
  run sched (init C n) [] = Ok s tr ->
  0 <= count (obj s) <= C /\
  (forall (t : nat) x, threads s !! t = Some (PutBody x) -> count (obj s) < C) /\
  (forall t : nat, threads s !! t = Some GetBody -> 0 < count (obj s)).
Proof.
  intros HC Hrun.
  destruct (run_inv C sched _ _ _ _ HC (init_inv C n ltac:(lia)) Hrun)
    as [Hcap Hcnt Hlen Hhd Htl Hown Hput Hget Hfifo].
  split; [exact Hcnt|]. split.
  - intros t x Ht. specialize (Hput t x Ht). lia.
  - intros t Ht. specialize (Hget t Ht). lia.
Qed.

Lemma count_within_capacity_witness :
  exists s tr, run demo_sched (init 2 3) [] = Ok s tr /\
    0 <= count (obj s) <= 2 /\
    (forall (t : nat) x, threads s !! t = Some (PutBody x) -> count (obj s) < 2) /\
    (forall t : nat, threads s !! t = Some GetBody -> 0 < count (obj s)).
Proof.
  eexists. eexists. split; [vm_compute; reflexivity|].
  eapply (count_within_capacity 2 3 demo_sched).
  - unfold INT_MAX. lia.
  - vm_compute. reflexivity.
Defined.

(** C2. For every interleaving of putItem/getItem calls on one buffer, the
    observed insertions and returned values are a run of the reference FIFO
    queue that ends with the queue's contents equal to the buffer's: the
    values returned are, in order and position by position, the values
    inserted, followed by what the buffer still holds. So items come out in
    insertion order, each at most once, and nothing else comes out. *)
Theorem fifo_refinement (C : Z) (n : nat) (sched : list action)
    (s : state) (tr : list event) :
  1 <= C <= INT_MAX ->
  run sched (init C n) [] = Ok s tr ->
  ref_replay tr [] = Some (buffer (obj s)) /\
  inserted tr = (returned tr ++ buffer (obj s))%list.
Proof.
  intros HC Hrun.
  destruct (run_inv C sched _ _ _ _ HC (init_inv C n ltac:(lia)) Hrun)
    as [Hcap Hcnt Hlen Hhd Htl Hown Hput Hget Hfifo].
  split; [exact Hfifo|].
  apply ref_replay_prefix in Hfifo. exact Hfifo.
Qed.

Lemma fifo_refinement_witness :
  exists s tr, run demo_sched (init 2 3) [] = Ok s tr /\
    returned tr = [7; 8; 9] /\
    ref_replay tr [] = Some (buffer (obj s)) /\
    inserted tr = (returned tr ++ buffer (obj s))%list.
Proof.
  eexists. eexists. split; [vm_compute; reflexivity|].
  split; [reflexivity|].
  eapply (fifo_refinement 2 3 demo_sched).
  - unfold INT_MAX. lia.
  - vm_compute. reflexivity.
Defined.

(** C9. After every operation of every interleaving of putItem/getItem
    calls, [count] equals the number of elements stored in the queue. *)
Theorem count_is_queue_size (C : Z) (n : nat) (sched : list action)
    (s : state) (tr : list event) :
  1 <= C <= INT_MAX ->
  run sched (init C n) [] = Ok s tr ->
  count (obj s) = Z.of_nat (length (buffer (obj s))).
Proof.
  intros HC Hrun.
  destruct (run_inv C sched _ _ _ _ HC (init_inv C n ltac:(lia)) Hrun)
    as [Hcap Hcnt Hlen Hhd Htl Hown Hput Hget Hfifo].
  exact Hlen.
Qed.

Lemma count_is_queue_size_witness :
  exists s tr, run demo_sched (init 2 3) [] = Ok s tr /\
    buffer (obj s) = [5] /\
    count (obj s) = Z.of_nat (length (buffer (obj s))).
Proof.
  eexists. eexists. split; [vm_compute; reflexivity|].
  split; [reflexivity|].
  eapply (count_is_queue_size 2 3 demo_sched).
  - unfold INT_MAX. lia.
  - vm_compute. reflexivity.
Defined.

(** No interleaving makes [getItem] read the front of an empty queue. *)
Lemma run_never_undefined (C : Z) (n : nat) (sched : list action) :
  1 <= C <= INT_MAX -> run sched (init C n) [] <> Undefined.
Proof.
  intros HC. apply (run_defined C); [exact HC|]. apply init_inv. lia.
Qed.

(** The indices wrap around at the capacity. *)
Lemma indices_within_capacity (C : Z) (n : nat) (sched : list action)
    (s : state) (tr : list event) :
  1 <= C <= INT_MAX ->
  run sched (init C n) [] = Ok s tr ->
  0 <= head (obj s) < C /\ 0 <= tail (obj s) < C.
Proof.
  intros HC Hrun.
  destruct (run_inv C sched _ _ _ _ HC (init_inv C n ltac:(lia)) Hrun)
    as [Hcap Hcnt Hlen Hhd Htl Hown Hput Hget Hfifo].
  split; assumption.
Qed.

End BufferFacts.

(** * Facts about strings and patterns *)

Module BytesFacts.
Import Bytes.

Local Open Scope string_scope.
Local Open Scope nat_scope.

Lemma append_nil_r (s : string) : s ++ "" = s.
Proof. induction s as [|c s IH]; simpl; [reflexivity|]. rewrite IH. reflexivity. Qed.

Lemma append_assoc (s1 s2 s3 : string) : (s1 ++ s2) ++ s3 = s1 ++ (s2 ++ s3).
Proof. induction s1 as [|c s1 IH]; simpl; [reflexivity|]. rewrite IH. reflexivity. Qed.

Lemma length_append (s1 s2 : string) :
  String.length (s1 ++ s2) = String.length s1 + String.length s2.
Proof. induction s1 as [|c s1 IH]; simpl; [reflexivity|]. rewrite IH. reflexivity. Qed.

Lemma append_nil_inv (s1 s2 : string) : s1 ++ s2 = "" -> s1 = "" /\ s2 = "".
Proof. destruct s1; simpl; intros H; [split; [reflexivity|exact H]|discriminate]. Qed.

Lemma append_inj_l (s t1 t2 : string) : s ++ t1 = s ++ t2 -> t1 = t2.
Proof.
  induction s as [|c s IH]; simpl; intros H; [exact H|].
  injection H as H. apply IH. exact H.
Qed.

Lemma take_drop (n : nat) (s : string) : take n s ++ drop n s = s.
Proof.
  revert s. induction n as [|n IH]; intros [|c s]; simpl; try reflexivity.
  rewrite IH. reflexivity.
Qed.

Lemma length_take (n : nat) (s : string) :
  String.length (take n s) = Nat.min n (String.length s).
Proof.
  revert s. induction n as [|n IH]; intros [|c s]; simpl; try reflexivity.
  rewrite IH. reflexivity.
Qed.

Lemma take_all (n : nat) (s : string) : String.length s <= n -> take n s = s.
Proof.
  revert s. induction n as [|n IH]; intros [|c s]; simpl; intros H;
    try reflexivity; try lia.
  rewrite IH by lia. reflexivity.
Qed.

Lemma drop_all (n : nat) (s : string) : String.length s <= n -> drop n s = "".
Proof.
  revert s. induction n as [|n IH]; intros [|c s]; simpl; intros H;
    try reflexivity; try lia.
  apply IH. lia.
Qed.

Lemma length_drop (n : nat) (s : string) :
  String.length (drop n s) = String.length s - n.
Proof.
  revert s. induction n as [|n IH]; intros [|c s]; simpl; try reflexivity.
  apply IH.
Qed.

Lemma occurs_append (c : ascii) (s1 s2 : string) :
  occurs c (s1 ++ s2) = occurs c s1 || occurs c s2.
Proof.
  induction s1 as [|d s1 IH]; simpl; [reflexivity|].
  rewrite IH. apply orb_assoc.
Qed.

Lemma all_append (f : ascii -> bool) (s1 s2 : string) :
  all f (s1 ++ s2) = all f s1 && all f s2.
Proof.
  induction s1 as [|d s1 IH]; simpl; [reflexivity|].
  rewrite IH. apply andb_assoc.
Qed.

(** Two splittings of one string: one of the two first parts is a prefix
    of the other. *)
Lemma append_eq_length (s1 t1 s2 t2 : string) :
  s1 ++ t1 = s2 ++ t2 -> String.length s1 = String.length s2 ->
  s1 = s2 /\ t1 = t2.
Proof.
  revert s2. induction s1 as [|c s1 IH]; intros [|d s2]; simpl; intros H Hl;
    try discriminate.
  - split; [reflexivity|exact H].
  - injection H as -> H. injection Hl as Hl.
    destruct (IH _ H Hl) as [-> ->]. split; reflexivity.
Qed.

End BytesFacts.

Module RegexFacts.
Import Bytes Regex BytesFacts.

Local Open Scope string_scope.
Local Open Scope nat_scope.

(** ** Derivatives and the matching relation *)

Lemma Matches_nil_nullable r s : Matches r s -> s = "" -> nullable r = true.
Proof.
  induction 1 as [|f c Hf|r1 r2 s1 s2 H1 IH1 H2 IH2|r1 r2 s H IH|r1 r2 s H IH
                 |r|r s1 s2 H1 IH1 H2 IH2]; intros Hs; simpl; try reflexivity.
  - discriminate.
  - apply append_nil_inv in Hs as [-> ->]. rewrite IH1, IH2; reflexivity.
  - rewrite IH by exact Hs. reflexivity.
  - rewrite IH by exact Hs. apply orb_true_r.
Qed.

Lemma nullable_Matches r : nullable r = true -> Matches r "".
Proof.
  induction r as [| |f|r1 IH1 r2 IH2|r1 IH1 r2 IH2|r IH]; simpl; intros H;
    try discriminate.
  - constructor.
  - apply andb_true_iff in H as [H1 H2].
    change "" with ("" ++ ""). constructor; auto.
  - apply orb_true_iff in H as [H|H]; [apply MAltL|apply MAltR]; auto.
  - constructor.
Qed.

Lemma nullable_spec r : nullable r = true <-> Matches r "".
Proof.
  split; [apply nullable_Matches|].
  intros H. eapply Matches_nil_nullable; [exact H|reflexivity].
Qed.

Lemma deriv_sound c r : forall s, Matches (deriv c r) s -> Matches r (String c s).
Proof.
  induction r as [| |f|r1 IH1 r2 IH2|r1 IH1 r2 IH2|r IH]; simpl; intros s H.
  - inversion H.
  - inversion H.
  - destruct (f c) eqn:Hf; inversion H; subst. constructor. exact Hf.
  - destruct (nullable r1) eqn:Hn.
    + inversion H as [| | |? ? ? H'|? ? ? H'| |]; subst.
      * inversion H' as [| |? ? s1 s2 Ha Hb| | | |]; subst.
        change (String c (s1 ++ s2)) with (String c s1 ++ s2).
        constructor; auto.
      * change (String c s) with ("" ++ String c s).
        constructor; [apply nullable_Matches; exact Hn|auto].
    + inversion H as [| |? ? s1 s2 Ha Hb| | | |]; subst.
      change (String c (s1 ++ s2)) with (String c s1 ++ s2).
      constructor; auto.
  - inversion H; subst; [apply MAltL|apply MAltR]; auto.
  - inversion H as [| |? ? s1 s2 Ha Hb| | | |]; subst.
    change (String c (s1 ++ s2)) with (String c s1 ++ s2).
    constructor; auto.
Qed.

Lemma deriv_complete c r s' :
  Matches r s' -> forall s, s' = String c s -> Matches (deriv c r) s.
Proof.
  induction 1 as [|f d Hf|r1 r2 s1 s2 H1 IH1 H2 IH2|r1 r2 s0 H IH|r1 r2 s0 H IH
                 |r|r s1 s2 H1 IH1 H2 IH2]; intros s Hs; simpl.
  - discriminate.
  - injection Hs as -> <-. rewrite Hf. constructor.
  - destruct s1 as [|e s1]; simpl in Hs.
    + rewrite (Matches_nil_nullable _ _ H1 eq_refl).
      apply MAltR. auto.
    + injection Hs as -> <-.
      assert (Hc : Matches (Cat (deriv c r1) r2) (s1 ++ s2)).
      { constructor; auto. }
      destruct (nullable r1); [apply MAltL|]; exact Hc.
  - apply MAltL. auto.
  - apply MAltR. auto.
  - discriminate.
  - destruct s1 as [|e s1]; simpl in Hs.
    + apply (IH2 _ Hs).
    + injection Hs as -> <-. constructor; auto.
Qed.

Lemma deriv_spec c r s : Matches (deriv c r) s <-> Matches r (String c s).
Proof.
  split; [apply deriv_sound|].
  intros H. eapply deriv_complete; [exact H|reflexivity].
Qed.

(** ** The longest matching prefix *)

Lemma longest_prefix_sound s : forall r m,
  longest_prefix r s = Some m -> Matches r m /\ exists rest, s = m ++ rest.
Proof.
  induction s as [|c s IH]; intros r m H; simpl in H.
  - destruct (nullable r) eqn:Hn; [|discriminate]. injection H as <-.
    split; [apply nullable_Matches; exact Hn|]. exists "". reflexivity.
  - destruct (longest_prefix (deriv c r) s) as [m'|] eqn:Hl.
    + injection H as <-. destruct (IH _ _ Hl) as [Hm [rest ->]].
      split; [apply deriv_sound; exact Hm|]. exists rest. reflexivity.
    + destruct (nullable r) eqn:Hn; [|discriminate]. injection H as <-.
      split; [apply nullable_Matches; exact Hn|]. exists (String c s). reflexivity.
Qed.

Lemma longest_prefix_complete s : forall r m rest,
  Matches r m -> s = m ++ rest -> exists m', longest_prefix r s = Some m'.
Proof.
  induction s as [|c s IH]; intros r m rest Hm Hs; simpl.
  - symmetry in Hs. apply append_nil_inv in Hs as [-> _].
    rewrite (Matches_nil_nullable _ _ Hm eq_refl). eauto.
  - destruct (longest_prefix (deriv c r) s) as [m'|] eqn:Hl; [eauto|].
    destruct m as [|d m]; simpl in Hs.
    + rewrite (Matches_nil_nullable _ _ Hm eq_refl). eauto.
    + injection Hs as <- ->. apply deriv_spec in Hm.
      destruct (IH _ _ _ Hm eq_refl) as [m' Hm']. congruence.
Qed.

Lemma longest_prefix_longest s : forall r m m' rest,
  longest_prefix r s = Some m -> Matches r m' -> s = m' ++ rest ->
  String.length m' <= String.length m.
Proof.
  induction s as [|c s IH]; intros r m m' rest H Hm' Hs; simpl in H.
  - symmetry in Hs. apply append_nil_inv in Hs as [-> _]. simpl. lia.
  - destruct m' as [|d m']; simpl in Hs; [simpl; lia|].
    injection Hs as <- ->. apply deriv_spec in Hm'.
    destruct (longest_prefix (deriv c r) (m' ++ rest)) as [m1|] eqn:Hl.
    + injection H as <-. simpl. apply le_n_S. eapply IH; eauto.
    + destruct (longest_prefix_complete (m' ++ rest) (deriv c r) m' rest Hm' eq_refl)
        as [m1 Hm1].
      congruence.
Qed.

(** A prefix that matches, and with it the whole string, is what
    [longest_prefix] returns. *)
Lemma longest_prefix_whole r s : Matches r s -> longest_prefix r s = Some s.
Proof.
  intros Hm.
  destruct (longest_prefix_complete s r s "" Hm) as [m H].
  { rewrite append_nil_r. reflexivity. }
  pose proof (longest_prefix_longest s r m s "" H Hm) as Hlen.
  rewrite append_nil_r in Hlen. specialize (Hlen eq_refl).
  destruct (longest_prefix_sound _ _ _ H) as [_ [rest Hs]].
  assert (Hr : rest = "").
  { assert (Hl : String.length s = String.length m + String.length rest)
      by (rewrite Hs at 1; apply length_append).
    destruct rest; [reflexivity|]. simpl in Hl. lia. }
  subst rest. rewrite append_nil_r in Hs. congruence.
Qed.

(** ** Searching *)

Lemma regex_search_sound s r : forall m,
  regex_search s r = Some m ->
  exists pre post, s = pre ++ m ++ post /\ Matches r m.
Proof.
  induction s as [|c s IH]; intros m H; simpl in H.
  - destruct (nullable r) eqn:Hn; [|discriminate]. injection H as <-.
    exists "", "". split; [reflexivity|apply nullable_Matches; exact Hn].
  - destruct (match longest_prefix (deriv c r) s with
              | Some m => Some (String c m)
              | None => if nullable r then Some "" else None
              end) as [m1|] eqn:Hl.
    + injection H as <-.
      destruct (longest_prefix_sound (String c s) r m1 Hl) as [Hm [rest Hs]].
      exists "", rest. split; [exact Hs|exact Hm].
    + destruct (IH _ H) as (pre & post & -> & Hm).
      exists (String c pre), post. split; [reflexivity|exact Hm].
Qed.

Lemma regex_search_complete s r : forall pre m post,
  s = pre ++ m ++ post -> Matches r m -> exists m', regex_search s r = Some m'.
Proof.
  induction s as [|c s IH]; intros pre m post Hs Hm.
  - symmetry in Hs. apply append_nil_inv in Hs as [-> Hs].
    apply append_nil_inv in Hs as [-> ->].
    simpl. rewrite (Matches_nil_nullable _ _ Hm eq_refl). eauto.
  - change (regex_search (String c s) r) with
      (match longest_prefix r (String c s) with
       | Some m => Some m
       | None => regex_search s r
       end).
    destruct (longest_prefix r (String c s)) as [m1|] eqn:Hl; [eauto|].
    destruct pre as [|d pre]; simpl in Hs.
    + destruct (longest_prefix_complete _ _ _ _ Hm Hs) as [m1 Hm1]. congruence.
    + injection Hs as <- ->. eapply IH; eauto.
Qed.

Lemma regex_search_none s r :
  regex_search s r = None <->
  (forall pre m post, s = pre ++ m ++ post -> ~ Matches r m).
Proof.
  split.
  - intros H pre m post Hs Hm.
    destruct (regex_search_complete s r pre m post Hs Hm) as [m' Hm']. congruence.
  - intros H. destruct (regex_search s r) as [m|] eqn:Hr; [|reflexivity].
    destruct (regex_search_sound _ _ _ Hr) as (pre & post & Hs & Hm).
    exfalso. eapply H; eauto.
Qed.

(** Where no prefix matches, the search moves on by one character. *)
Lemma regex_search_skip c s r :
  (forall m rest, String c s = m ++ rest -> ~ Matches r m) ->
  regex_search (String c s) r = regex_search s r.
Proof.
  intros H.
  change (regex_search (String c s) r) with
    (match longest_prefix r (String c s) with
     | Some m => Some m
     | None => regex_search s r
     end).
  destruct (longest_prefix r (String c s)) as [m|] eqn:Hl; [|reflexivity].
  destruct (longest_prefix_sound _ _ _ Hl) as [Hm [rest Hs]].
  exfalso. eapply H; eauto.
Qed.

(** Where the whole rest of the string matches, it is the match. *)
Lemma regex_search_here s r : Matches r s -> regex_search s r = Some s.
Proof.
  intros Hm. pose proof (longest_prefix_whole r s Hm) as H.
  destruct s; simpl in *; rewrite H; reflexivity.
Qed.

(** ** Patterns made of classes *)

Lemma Matches_Class_inv f s :
  Matches (Class f) s -> exists c, s = String c "" /\ f c = true.
Proof. intros H. inversion H; subst. eauto. Qed.

Lemma Matches_Eps_inv s : Matches Eps s -> s = "".
Proof. intros H. inversion H. reflexivity. Qed.

Lemma Matches_Cat_inv r1 r2 s :
  Matches (Cat r1 r2) s -> exists s1 s2, s = s1 ++ s2 /\ Matches r1 s1 /\ Matches r2 s2.
Proof. intros H. inversion H; subst. eauto. Qed.

Lemma Matches_Star_Class_inv f s : Matches (Star (Class f)) s -> all f s = true.
Proof.
  intros H. remember (Star (Class f)) as r eqn:Hr.
  induction H as [|g c Hg|r1 r2 s1 s2 H1 IH1 H2 IH2|r1 r2 s H IH|r1 r2 s H IH
                 |r0|r0 s1 s2 H1 IH1 H2 IH2]; try discriminate.
  - reflexivity.
  - injection Hr as ->. rewrite all_append, (IH2 eq_refl), andb_true_r.
    apply Matches_Class_inv in H1 as (c & -> & Hc). simpl. rewrite Hc. reflexivity.
Qed.

Lemma Matches_Star_Class f s : all f s = true -> Matches (Star (Class f)) s.
Proof.
  induction s as [|c s IH]; simpl; intros H; [constructor|].
  apply andb_true_iff in H as [Hc Hs].
  change (String c s) with (String c "" ++ s).
  constructor; [constructor; exact Hc|auto].
Qed.

Lemma Matches_Lit_inv l s : Matches (Lit l) s -> s = l.
Proof.
  revert s. induction l as [|c l IH]; simpl; intros s H.
  - apply Matches_Eps_inv. exact H.
  - apply Matches_Cat_inv in H as (s1 & s2 & -> & H1 & H2).
    apply Matches_Class_inv in H1 as (d & -> & Hd).
    apply Ascii.eqb_eq in Hd as <-. simpl. f_equal. auto.
Qed.

Lemma Matches_Lit l : Matches (Lit l) l.
Proof.
  induction l as [|c l IH]; simpl; [constructor|].
  change (String c l) with (String c "" ++ l).
  constructor; [constructor; apply Ascii.eqb_refl|exact IH].
Qed.

End RegexFacts.

(** * Facts about the request pipeline *)

Module ServeFacts.
Import Bytes Regex Serve Spec BytesFacts RegexFacts.

Local Open Scope string_scope.
Local Open Scope nat_scope.

(** ** Sockets *)

Lemma sent_sendData s data : sent (sendData s data) = sent s ++ data.
Proof. reflexivity. Qed.

Lemma closed_sendData s data : closed (sendData s data) = closed s.
Proof. reflexivity. Qed.

Lemma sendData_sendData s d1 d2 :
  sendData (sendData s d1) d2 = sendData s (d1 ++ d2).
Proof. unfold sendData. simpl. rewrite append_assoc. reflexivity. Qed.

(** ** [sendFile] sends the whole file and returns *)

Lemma sendFile_loop_eq fuel file s :
  sendFile_loop fuel file s =
  if eof file then Some s
  else match fuel with
       | O => None
       | S fuel' =>
           let (file', data) := read file buff_size in
           sendFile_loop fuel' file' (sendData s data)
       end.
Proof. destruct fuel; reflexivity. Qed.

Lemma sendFile_loop_total fuel : forall file s,
  eof file = false -> failed file = false ->
  String.length (unread file) < fuel ->
  sendFile_loop fuel file s = Some (sendData s (unread file)).
Proof.
  assert (Hpos : 0 < buff_size) by (unfold buff_size; lia).
  induction fuel as [|fuel IH]; intros file s Heof Hfail Hlen; [lia|].
  rewrite sendFile_loop_eq, Heof. unfold read. rewrite Hfail.
  generalize dependent buff_size. intros n Hpos.
  destruct (Nat.ltb_spec (String.length (take n (unread file))) n) as [Hlt|Hge].
  - rewrite sendFile_loop_eq. cbn [eof].
    rewrite length_take in Hlt.
    rewrite take_all by lia. reflexivity.
  - rewrite length_take in Hge.
    rewrite IH; cbn [eof failed unread];
      [|reflexivity|reflexivity|rewrite length_drop; lia].
    rewrite sendData_sendData, take_drop. reflexivity.
Qed.

(** On a stream in an error state the loop never ends. *)
Lemma sendFile_loop_failed fuel : forall file s,
  eof file = false -> failed file = true -> sendFile_loop fuel file s = None.
Proof.
  induction fuel as [|fuel IH]; intros file s Heof Hfail;
    rewrite sendFile_loop_eq, Heof; [reflexivity|].
  unfold read. rewrite Hfail. apply IH; assumption.
Qed.

Lemma sendFile_total fs s filename :
  ifstream_good fs filename = true -> is_directory fs filename = false ->
  sendFile fs s filename = Some (sendData s (file_bytes fs filename ++ CRLF)).
Proof.
  intros Hg Hd. unfold sendFile.
  rewrite sendFile_loop_total; cbn [ifstream_open eof failed unread];
    [|reflexivity|rewrite Hg, Hd; reflexivity|lia].
  rewrite sendData_sendData. reflexivity.
Qed.

(** A path that does not open, and a directory: [sendFile] does not return. *)
Lemma sendFile_spins fs s filename :
  ifstream_good fs filename = false \/ is_directory fs filename = true ->
  sendFile fs s filename = None.
Proof.
  intros H. unfold sendFile. rewrite sendFile_loop_failed; [reflexivity|reflexivity|].
  cbn [ifstream_open failed]. destruct H as [-> | ->]; [reflexivity|apply orb_true_r].
Qed.

Lemma sendHeader_returns_file fs filename :
  ifstream_good fs filename = true -> is_directory fs filename = false ->
  sendHeader_returns fs filename = true.
Proof.
  intros Hg Hd. unfold sendHeader_returns, file_size_throws.
  rewrite Hg, Hd. destruct (regex_search filename rgx); reflexivity.
Qed.

(** ** The pattern of [sendHeader] *)

Lemma rgx_Matches m :
  Matches rgx m <-> exists w, m = String "." w /\ all is_word w = true.
Proof.
  unfold rgx, seq. simpl. split.
  - intros H.
    apply Matches_Cat_inv in H as (s1 & s2 & -> & H1 & H2).
    apply Matches_Class_inv in H1 as (c & -> & Hc).
    apply Ascii.eqb_eq in Hc as <-.
    apply Matches_Cat_inv in H2 as (s3 & s4 & -> & H3 & H4).
    apply Matches_Eps_inv in H4 as ->.
    apply Matches_Star_Class_inv in H3.
    rewrite append_nil_r. exists s3. split; [reflexivity|exact H3].
  - intros (w & -> & Hw).
    change (String "." w) with (String "." "" ++ w).
    constructor; [constructor; reflexivity|].
    rewrite <- (append_nil_r w). constructor; [|constructor].
    apply Matches_Star_Class. exact Hw.
Qed.

(** A path without a dot has no match. *)
Lemma rgx_no_dot s : occurs "." s = false -> regex_search s rgx = None.
Proof.
  intros Hs. apply regex_search_none. intros pre m post -> Hm.
  apply rgx_Matches in Hm as (w & -> & _).
  rewrite !occurs_append in Hs. simpl in Hs.
  rewrite orb_true_r in Hs. discriminate.
Qed.

(** When the only dot of a path starts a run of word characters that ends
    the path, the match is that dot and that run. *)
Lemma rgx_extension stem ext :
  occurs "." stem = false -> all is_word ext = true ->
  regex_search (stem ++ String "." ext) rgx = Some (String "." ext).
Proof.
  intros Hstem Hext. induction stem as [|c stem IH]; simpl append.
  - apply regex_search_here. apply rgx_Matches. eauto.
  - simpl in Hstem. apply orb_false_iff in Hstem as [Hc Hstem].
    rewrite regex_search_skip; [auto|].
    intros m rest Hs Hm. apply rgx_Matches in Hm as (w & -> & _).
    simpl in Hs. injection Hs as -> _.
    rewrite Ascii.eqb_refl in Hc. discriminate.
Qed.

(** ** The pattern of [validGET] *)

Lemma http_request_regex_eq : http_request_regex = request_regex is_space.
Proof. reflexivity. Qed.

Lemma Matches_Cat_eq r1 r2 s s1 s2 :
  Matches r1 s1 -> Matches r2 s2 -> s = s1 ++ s2 -> Matches (Cat r1 r2) s.
Proof. intros H1 H2 ->. constructor; assumption. Qed.

Lemma request_regex_Matches sep m :
  Matches (request_regex sep) m <-> request_line sep m.
Proof.
  unfold request_regex, seq, request_line. cbn [fold_right]. split.
  - intros H.
    apply Matches_Cat_inv in H as (g & s1 & -> & Hg & H).
    apply Matches_Lit_inv in Hg as ->.
    apply Matches_Cat_inv in H as (w1 & s2 & -> & Hw1 & H).
    apply Matches_Class_inv in Hw1 as (ws1 & -> & Hws1).
    apply Matches_Cat_inv in H as (path & s3 & -> & Hpath & H).
    apply Matches_Star_Class_inv in Hpath.
    apply Matches_Cat_inv in H as (w2 & s4 & -> & Hw2 & H).
    apply Matches_Class_inv in Hw2 as (ws2 & -> & Hws2).
    apply Matches_Cat_inv in H as (h & s5 & -> & Hh & H).
    apply Matches_Lit_inv in Hh as ->.
    apply Matches_Cat_inv in H as (x1 & s6 & -> & Hx1 & H).
    apply Matches_Class_inv in Hx1 as (d1 & -> & Hd1).
    apply Matches_Cat_inv in H as (x2 & s7 & -> & Hx2 & H).
    apply Matches_Class_inv in Hx2 as (dot & -> & Hdot).
    apply Ascii.eqb_eq in Hdot as <-.
    apply Matches_Cat_inv in H as (x3 & s8 & -> & Hx3 & H).
    apply Matches_Class_inv in Hx3 as (d2 & -> & Hd2).
    apply Matches_Eps_inv in H as ->.
    exists ws1, path, ws2, d1, d2. repeat split; assumption.
  - intros (ws1 & path & ws2 & d1 & d2 & -> & Hws1 & Hpath & Hws2 & Hd1 & Hd2).
    eapply Matches_Cat_eq; [apply Matches_Lit| |reflexivity].
    eapply (Matches_Cat_eq _ _ _ (String ws1 ""));
      [constructor; exact Hws1| |reflexivity].
    eapply (Matches_Cat_eq _ _ _ path);
      [apply Matches_Star_Class; exact Hpath| |reflexivity].
    eapply (Matches_Cat_eq _ _ _ (String ws2 ""));
      [constructor; exact Hws2| |reflexivity].
    eapply (Matches_Cat_eq _ _ _ "HTTP/"); [apply Matches_Lit| |reflexivity].
    eapply (Matches_Cat_eq _ _ _ (String d1 ""));
      [constructor; exact Hd1| |reflexivity].
    eapply (Matches_Cat_eq _ _ _ (String "." ""));
      [constructor; reflexivity| |reflexivity].
    eapply (Matches_Cat_eq _ _ _ (String d2 ""));
      [constructor; exact Hd2|constructor|reflexivity].
Qed.

(** A search for the request pattern succeeds exactly on the strings that
    contain a request line. *)
Lemma request_regex_search sep request :
  regex_search request (request_regex sep) <> None <->
  exists m, request_line sep m /\ contains request m.
Proof.
  split.
  - intros H. destruct (regex_search request (request_regex sep)) as [m|] eqn:Hs;
      [|congruence].
    apply regex_search_sound in Hs as (pre & post & Hreq & Hm).
    exists m. split; [apply request_regex_Matches; exact Hm|].
    exists pre, post. exact Hreq.
  - intros (m & Hm & pre & post & Hreq).
    apply request_regex_Matches in Hm.
    destruct (regex_search_complete _ _ _ _ _ Hreq Hm) as [m' Hm']. congruence.
Qed.

Lemma validGET_spec request :
  validGET request = true <->
  exists m, request_line is_space m /\ contains request m.
Proof.
  rewrite <- request_regex_search, <- http_request_regex_eq. unfold validGET.
  destruct (regex_search request http_request_regex); split; congruence.
Qed.

(** ** The paths through [handleClient] *)

Lemma handleClient_eq fs sock root :
  handleClient fs sock root =
  let request := receiveData sock BUFFER_SIZE in
  if negb (validGET request) then Some (sendBad sock)
  else
    let path := root ++ request_path request in
    if negb (fileExists fs path) && negb (isDirectory fs path)
    then Some (sendError (sendNotFound sock))
    else
      match
        (if isDirectory fs path then sendHTML fs (sendOK sock) path
         else if fileExists fs path
              then
                if sendHeader_returns fs path
                then sendFile fs (sendHeader fs (sendOK sock) path) path
                else None
              else Some (sendOK sock))
      with
      | Some s => Some (close s)
      | None => None
      end.
Proof.
  unfold handleClient, request_path. cbv zeta.
  destruct (getline (istringstream_of (receiveData sock BUFFER_SIZE)) "" " ")
    as [f1 t1].
  destruct (getline f1 t1 " ") as [f2 t2]. reflexivity.
Qed.

Lemma handleClient_bad fs sock root :
  validGET (receiveData sock BUFFER_SIZE) = false ->
  handleClient fs sock root = Some (sendBad sock).
Proof. intros H. rewrite handleClient_eq. cbv zeta. rewrite H. reflexivity. Qed.

Lemma handleClient_not_found fs sock root :
  validGET (receiveData sock BUFFER_SIZE) = true ->
  let path := root ++ request_path (receiveData sock BUFFER_SIZE) in
  fileExists fs path = false -> isDirectory fs path = false ->
  handleClient fs sock root = Some (sendError (sendNotFound sock)).
Proof.
  intros H path He Hd. rewrite handleClient_eq. cbv zeta. fold path.
  rewrite H, He, Hd. reflexivity.
Qed.

Lemma handleClient_file fs sock root :
  validGET (receiveData sock BUFFER_SIZE) = true ->
  let path := root ++ request_path (receiveData sock BUFFER_SIZE) in
  fileExists fs path = true -> isDirectory fs path = false ->
  handleClient fs sock root =
  Some (close (sendData (sendHeader fs (sendOK sock) path)
                        (file_bytes fs path ++ CRLF))).
Proof.
  intros H path He Hd. rewrite handleClient_eq. cbv zeta. fold path.
  rewrite H, He, Hd. cbn [negb andb].
  rewrite (sendHeader_returns_file _ _ He Hd), (sendFile_total _ _ _ He Hd).
  reflexivity.
Qed.

Lemma handleClient_directory fs sock root :
  validGET (receiveData sock BUFFER_SIZE) = true ->
  let path := root ++ request_path (receiveData sock BUFFER_SIZE) in
  isDirectory fs path = true ->
  handleClient fs sock root =
  match sendHTML fs (sendOK sock) path with
  | Some s => Some (close s)
  | None => None
  end.
Proof.
  intros H path Hd. rewrite handleClient_eq. cbv zeta. fold path.
  rewrite H, Hd, andb_false_r. reflexivity.
Qed.

(** ** What the responses look like *)

Lemma header_type_In match0 : In (header_type match0) content_types.
Proof.
  unfold header_type, content_types.
  repeat match goal with
         | |- context [if ?c then _ else _] => destruct c
         end; simpl; tauto.
Qed.

Lemma header_type_extension ext : header_type (String "." ext) = content_type ext.
Proof. reflexivity. Qed.

Lemma sendHeader_eq fs s filename :
  sendHeader fs s filename =
  match regex_search filename rgx with
  | Some match0 =>
      sendData s ("Content-Type: " ++ header_type match0 ++ CRLF ++
                  "Content-Length: " ++ to_string (file_size fs filename) ++ CRLF ++
                  CRLF)
  | None => s
  end.
Proof. reflexivity. Qed.

(** Status line, headers and body sent one after the other make up a
    response with headers. *)
Lemma sent_with_headers s status type declared body :
  sent (sendData (sendData (sendData s (status ++ CRLF))
                   ("Content-Type: " ++ type ++ CRLF ++
                    "Content-Length: " ++ to_string declared ++ CRLF ++ CRLF))
                 (body ++ CRLF))
  = sent s ++ with_headers status type declared body.
Proof.
  rewrite !sent_sendData. unfold with_headers.
  rewrite !append_assoc. reflexivity.
Qed.


Lemma with_headers_framed status type body :
  with_headers status type (N.of_nat (String.length body)) body
  = framed status type body.
Proof. reflexivity. Qed.




(** What the loop of [sendHTML] does: with an entry [index.html] it goes
    on with [sendHeader] and [sendFile] for that entry, else it sends the
    page made of what was written so far and the lines of the entries that
    are left. *)
Lemma sendHTML_loop_spec fs filename items : forall s stream,
  sendHTML_loop fs s filename items stream =
  if has_index items
  then
    if sendHeader_returns fs (item_path filename "index.html")
    then sendFile fs (sendHeader fs s (item_path filename "index.html"))
                  (item_path filename "index.html")
    else None
  else
    let html_page :=
      stream ++ listing_lines fs filename items ++
      "</ul>" ++ CRLF ++ "</body>" ++ CRLF ++ "</html>" ++ CRLF in
    Some (sendData s
            ("Content-Type: " ++ "text/html" ++ CRLF ++
             "Content-Length: " ++ to_string (N.of_nat (String.length html_page))
             ++ CRLF ++ CRLF ++ html_page ++ CRLF)).
Proof.
  induction items as [|name items IH]; intros s stream.
  - reflexivity.
  - cbn [sendHTML_loop has_index listing_lines].
    destruct (String.eqb_spec name "index.html") as [->|Hne].
    + reflexivity.
    + cbn [orb]. unfold listing_line.
      destruct (is_regular_file fs (filename ++ name));
        [|destruct (is_directory fs (filename ++ name))];
        rewrite IH; destruct (has_index items); try reflexivity;
        cbv zeta; rewrite ?append_assoc; reflexivity.
Qed.

Lemma sendHTML_directory fs s filename :
  isDirectory fs filename = true ->
  sendHTML fs s filename =
  if has_index (directory_iterator fs filename)
  then
    if sendHeader_returns fs (item_path filename "index.html")
    then sendFile fs (sendHeader fs s (item_path filename "index.html"))
                  (item_path filename "index.html")
    else None
  else
    let html_page := listing_page fs filename (directory_iterator fs filename) in
    Some (sendData s
            ("Content-Type: " ++ "text/html" ++ CRLF ++
             "Content-Length: " ++ to_string (N.of_nat (String.length html_page))
             ++ CRLF ++ CRLF ++ html_page ++ CRLF)).
Proof.
  intros Hd. unfold sendHTML. rewrite Hd. cbn [negb andb].
  rewrite sendHTML_loop_spec.
  destruct (has_index (directory_iterator fs filename)); [reflexivity|].
  cbv zeta. unfold listing_page. rewrite ?append_assoc. reflexivity.
Qed.

Lemma fs_of_consistent tree p :
  file_size (fs_of tree) p = N.of_nat (String.length (file_bytes (fs_of tree) p)).
Proof. simpl. destruct (lookup_node tree p) as [[]|]; reflexivity. Qed.

(** ** The properties of the specification *)




(** A file in whose path the only dot starts a run of word characters that
    ends the path. *)
Lemma handleClient_file_extension fs sock root stem ext :
  validGET (receiveData sock BUFFER_SIZE) = true ->
  root ++ request_path (receiveData sock BUFFER_SIZE) = stem ++ "." ++ ext ->
  occurs "." stem = false -> all is_word ext = true ->
  fileExists fs (stem ++ "." ++ ext) = true ->
  isDirectory fs (stem ++ "." ++ ext) = false ->
  handleClient fs sock root =
  Some {| inbox := inbox sock;
          sent := sent sock ++
                  with_headers "HTTP/1.0 200 OK" (content_type ext)
                    (file_size fs (stem ++ "." ++ ext))
                    (file_bytes fs (stem ++ "." ++ ext));
          closed := true |}.
Proof.
  intros Hv Hpath Hstem Hext He Hd.
  rewrite handleClient_file; rewrite ?Hpath; try assumption.
  rewrite sendHeader_eq.
  change (stem ++ "." ++ ext) with (stem ++ String "." ext).
  rewrite (rgx_extension _ _ Hstem Hext), header_type_extension.
  unfold close. f_equal. f_equal. unfold sendOK. apply sent_with_headers.
Qed.

(** C10. For every request that resolves to an existing file that is not
    a directory and whose full path (root and requested path) holds no
    '.', the server sends the line [HTTP/1.0 200 OK], directly followed by
    the bytes of the file and the two-byte terminator, and closes: no
    Content-Type header, no Content-Length header, no blank line. *)
Theorem file_without_dot_response fs sock root :
  validGET (receiveData sock BUFFER_SIZE) = true ->
  occurs "." (root ++ request_path (receiveData sock BUFFER_SIZE)) = false ->
  fileExists fs (root ++ request_path (receiveData sock BUFFER_SIZE)) = true ->
  isDirectory fs (root ++ request_path (receiveData sock BUFFER_SIZE)) = false ->
  regex_search (root ++ request_path (receiveData sock BUFFER_SIZE)) rgx = None /\
  handleClient fs sock root =
  Some {| inbox := inbox sock;
          sent := sent sock ++ "HTTP/1.0 200 OK" ++ CRLF ++
                  file_bytes fs (root ++ request_path (receiveData sock BUFFER_SIZE))
                  ++ CRLF;
          closed := true |}.
Proof.
  intros Hv Hdot He Hd. split; [apply rgx_no_dot; exact Hdot|].
  rewrite handleClient_file by assumption.
  rewrite sendHeader_eq, (rgx_no_dot _ Hdot).
  unfold close. f_equal. f_equal. unfold sendOK.
  rewrite !sent_sendData, !append_assoc. reflexivity.
Qed.

Lemma file_without_dot_response_witness :
  regex_search "www/README" rgx = None /\
  handleClient demo_fs (connect "GET /README HTTP/1.0") "www" =
  Some {| inbox := "GET /README HTTP/1.0";
          sent := "HTTP/1.0 200 OK" ++ CRLF ++ "read me" ++ CRLF;
          closed := true |}.
Proof.
  apply (file_without_dot_response demo_fs (connect "GET /README HTTP/1.0") "www");
    vm_compute; reflexivity.
Defined.




(** The first match is not always the extension: under the root [./www]
    the file [index.html] is sent as text/plain. *)
Lemma dot_in_root_plain :
  handleClient demo_fs (connect "GET /index.html HTTP/1.0") "./www" =
  Some {| inbox := "GET /index.html HTTP/1.0";
          sent := with_headers "HTTP/1.0 200 OK" "text/plain" 42 text42;
          closed := true |}.
Proof. vm_compute. reflexivity. Qed.

(** C8, as amended. For the request [GET /index.html HTTP/1.0], a root
    without '.', and [index.html] an existing regular file of 42 bytes,
    the response is the status line [HTTP/1.0 200 OK], the header
    [Content-Type: text/html], the header [Content-Length: 42], a blank
    line, exactly those 42 bytes, then the two-byte terminator. *)
Theorem index_html_response fs sock root bytes :
  inbox sock = "GET /index.html HTTP/1.0" ->
  occurs "." root = false ->
  fileExists fs (root ++ "/index.html") = true ->
  isDirectory fs (root ++ "/index.html") = false ->
  file_bytes fs (root ++ "/index.html") = bytes ->
  String.length bytes = 42 ->
  file_size fs (root ++ "/index.html") = N.of_nat (String.length bytes) ->
  handleClient fs sock root =
  Some {| inbox := inbox sock;
          sent := sent sock ++ "HTTP/1.0 200 OK" ++ CRLF ++
                  "Content-Type: text/html" ++ CRLF ++
                  "Content-Length: 42" ++ CRLF ++ CRLF ++
                  bytes ++ CRLF;
          closed := true |}.
Proof.
  intros Hin Hroot He Hd Hbytes Hlen Hsize.
  assert (Hreq : receiveData sock BUFFER_SIZE = "GET /index.html HTTP/1.0").
  { unfold receiveData. rewrite Hin. vm_compute. reflexivity. }
  assert (Hpath : root ++ "/index.html" = (root ++ "/index") ++ "." ++ "html").
  { rewrite append_assoc. reflexivity. }
  rewrite Hpath in He, Hd, Hbytes, Hsize.
  rewrite (handleClient_file_extension fs sock root (root ++ "/index") "html");
    rewrite ?Hreq; try assumption; try reflexivity.
  - rewrite Hsize, Hbytes, Hlen. reflexivity.
  - rewrite occurs_append, Hroot. reflexivity.
Qed.

Lemma index_html_response_witness :
  handleClient demo_fs (connect "GET /index.html HTTP/1.0") "www" =
  Some {| inbox := "GET /index.html HTTP/1.0";
          sent := "HTTP/1.0 200 OK" ++ CRLF ++
                  "Content-Type: text/html" ++ CRLF ++
                  "Content-Length: 42" ++ CRLF ++ CRLF ++
                  text42 ++ CRLF;
          closed := true |}.
Proof.
  apply (index_html_response demo_fs (connect "GET /index.html HTTP/1.0") "www" text42);
    vm_compute; reflexivity.
Defined.

(** C8, as stated, fails under the root [www]: [index.html], 42 bytes of
    plain text, is not sent with [Content-Type: text/plain]. *)
Lemma index_html_response_counterexample :
  String.length text42 = 42 /\
  file_bytes demo_fs "www/index.html" = text42 /\
  exists s',
    handleClient demo_fs (connect "GET /index.html HTTP/1.0") "www" = Some s' /\
    sent s' <> "HTTP/1.0 200 OK" ++ CRLF ++
               "Content-Type: text/plain" ++ CRLF ++
               "Content-Length: 42" ++ CRLF ++ CRLF ++
               text42 ++ CRLF.
Proof.
  split; [reflexivity|]. split; [reflexivity|].
  eexists. split; [vm_compute; reflexivity|].
  intros H. vm_compute in H. discriminate H.
Qed.

(** C7, as amended. For every received request buffer that contains no
    substring [GET<ws><path><ws>HTTP/<digit>.<digit>], where the path is
    over word characters, '-', '.' and '/' and each [<ws>] is one
    whitespace character (space, tab, line feed, vertical tab, form feed
    or carriage return), the server sends exactly the line
    [HTTP/1.0 400 BAD REQUEST] and CRLF: no header, no body. *)
Theorem bad_request_response fs sock root :
  (forall m, request_line is_space m ->
             ~ contains (receiveData sock BUFFER_SIZE) m) ->
  handleClient fs sock root =
  Some {| inbox := inbox sock;
          sent := sent sock ++ "HTTP/1.0 400 BAD REQUEST" ++ CRLF;
          closed := closed sock |}.
Proof.
  intros H. apply handleClient_bad.
  destruct (validGET (receiveData sock BUFFER_SIZE)) eqn:Hv; [|reflexivity].
  apply validGET_spec in Hv as (m & Hm & Hc). exfalso. exact (H m Hm Hc).
Qed.

Lemma bad_request_response_witness :
  handleClient demo_fs (connect "POST / HTTP/1.0") "www" =
  Some {| inbox := "POST / HTTP/1.0";
          sent := "HTTP/1.0 400 BAD REQUEST" ++ CRLF;
          closed := false |}.
Proof.
  apply (bad_request_response demo_fs (connect "POST / HTTP/1.0") "www").
  intros m Hm Hc.
  assert (Hv : validGET (receiveData (connect "POST / HTTP/1.0") BUFFER_SIZE) = true).
  { apply validGET_spec. exists m. split; assumption. }
  vm_compute in Hv. discriminate Hv.
Defined.

(** C7, as stated, fails on a request whose separator is a tab: it has no
    substring [GET <path> HTTP/<digit>.<digit>] with spaces, and the
    server does not answer with the 400 line (it goes on to look for the
    file and answers 404). *)
Lemma bad_request_response_counterexample :
  (forall m, request_line (Ascii.eqb " ") m ->
             ~ contains (receiveData (connect tab_request) BUFFER_SIZE) m) /\
  exists s',
    handleClient demo_fs (connect tab_request) "www" = Some s' /\
    sent s' <> "HTTP/1.0 400 BAD REQUEST" ++ CRLF.
Proof.
  split.
  - intros m Hm Hc.
    assert (Hs : regex_search (receiveData (connect tab_request) BUFFER_SIZE)
                   (request_regex (Ascii.eqb " ")) <> None).
    { apply request_regex_search. exists m. split; assumption. }
    vm_compute in Hs. congruence.
  - eexists. split; [vm_compute; reflexivity|].
    intros H. vm_compute in H. discriminate H.
Qed.

(** ** Closing the socket *)

(** When [handleClient] returns, it has closed the socket on the 200 path
    and on no other. *)
Lemma handleClient_closed fs sock root s' :
  handleClient fs sock root = Some s' ->
  closed s' =
  if validGET (receiveData sock BUFFER_SIZE)
  then fileExists fs (root ++ request_path (receiveData sock BUFFER_SIZE))
       || isDirectory fs (root ++ request_path (receiveData sock BUFFER_SIZE))
       || closed sock
  else closed sock.
Proof.
  rewrite handleClient_eq. cbv zeta.
  destruct (validGET (receiveData sock BUFFER_SIZE)); cbn [negb].
  2:{ intros H. injection H as <-. reflexivity. }
  destruct (fileExists fs _), (isDirectory fs _); cbn [negb andb orb];
    try (destruct (sendHTML fs _ _); intros H; [injection H as <-|discriminate];
         reflexivity).
  - destruct (sendHeader_returns fs _); [|discriminate].
    destruct (sendFile fs _ _); intros H; [injection H as <-|discriminate].
    reflexivity.
  - intros H. injection H as <-. reflexivity.
Qed.

(** C3. The socket of a request that is answered with 400 is still open
    when [handleClient] returns. *)
Theorem bad_request_not_closed :
  handleClient demo_fs (connect "POST / HTTP/1.0") "www" =
  Some {| inbox := "POST / HTTP/1.0";
          sent := "HTTP/1.0 400 BAD REQUEST" ++ CRLF;
          closed := false |}.
Proof. vm_compute. reflexivity. Qed.

(** So is the socket of a request that is answered with 404. *)
Lemma not_found_not_closed :
  exists s',
    handleClient demo_fs (connect "GET /missing.txt HTTP/1.1") "www" = Some s' /\
    sent s' = framed "HTTP/1.0 404 NOT FOUND" "text/html" error_page /\
    closed s' = false.
Proof. eexists. split; [vm_compute; reflexivity|]. split; reflexivity. Qed.

(** ** Directory listings *)


(** A directory with an entry [index.html] that opens and is no directory:
    that file is sent as [sendHeader] and [sendFile] send a file. *)
Lemma directory_index_response fs sock root :
  validGET (receiveData sock BUFFER_SIZE) = true ->
  isDirectory fs (root ++ request_path (receiveData sock BUFFER_SIZE)) = true ->
  has_index (directory_iterator fs
               (root ++ request_path (receiveData sock BUFFER_SIZE))) = true ->
  ifstream_good fs
    (item_path (root ++ request_path (receiveData sock BUFFER_SIZE)) "index.html")
    = true ->
  is_directory fs
    (item_path (root ++ request_path (receiveData sock BUFFER_SIZE)) "index.html")
    = false ->
  handleClient fs sock root =
  Some (close (sendData
                 (sendHeader fs (sendOK sock)
                    (item_path (root ++ request_path (receiveData sock BUFFER_SIZE))
                       "index.html"))
                 (file_bytes fs
                    (item_path (root ++ request_path (receiveData sock BUFFER_SIZE))
                       "index.html") ++ CRLF))).
Proof.
  intros Hv Hd Hi Hg Hnd.
  rewrite handleClient_directory by assumption.
  rewrite (sendHTML_directory _ _ _ Hd), Hi.
  rewrite (sendHeader_returns_file _ _ Hg Hnd), (sendFile_total _ _ _ Hg Hnd).
  reflexivity.
Qed.

(** A directory with an entry [index.html] that is itself a directory, or
    that does not open: [handleClient] does not return. *)
Lemma directory_index_no_return fs sock root :
  validGET (receiveData sock BUFFER_SIZE) = true ->
  isDirectory fs (root ++ request_path (receiveData sock BUFFER_SIZE)) = true ->
  has_index (directory_iterator fs
               (root ++ request_path (receiveData sock BUFFER_SIZE))) = true ->
  ifstream_good fs
    (item_path (root ++ request_path (receiveData sock BUFFER_SIZE)) "index.html")
    = false \/
  is_directory fs
    (item_path (root ++ request_path (receiveData sock BUFFER_SIZE)) "index.html")
    = true ->
  handleClient fs sock root = None.
Proof.
  intros Hv Hd Hi H.
  rewrite handleClient_directory by assumption.
  rewrite (sendHTML_directory _ _ _ Hd), Hi.
  destruct (sendHeader_returns fs _); [|reflexivity].
  rewrite (sendFile_spins _ _ _ H). reflexivity.
Qed.

(** The two cases at work: [fs::file_size] throws on the directory
    [site/index.html] and on the missing [void/index.html], after the 200
    line has gone out, and [handleClient] does not return. *)
Lemma index_not_served :
  handleClient odd_fs (connect "GET / HTTP/1.0") "site" = None /\
  handleClient odd_fs (connect "GET / HTTP/1.0") "void" = None.
Proof. split; vm_compute; reflexivity. Qed.

(** When the directory path ends with a slash, [dir ++ name] is the path
    of the entry. *)
Lemma item_path_slash dir name :
  ends_with_slash dir = true -> item_path dir name = dir ++ name.
Proof. intros H. unfold item_path. rewrite H. reflexivity. Qed.

(** The example of the specification: [subdir/] lists [a.txt] and [b/]. *)
Lemma listing_with_slash :
  directory_iterator demo_fs "www/subdir/" = ["a.txt"; "b"] /\
  handleClient demo_fs (connect "GET /subdir/ HTTP/1.0") "www" =
  Some {| inbox := "GET /subdir/ HTTP/1.0";
          sent := framed "HTTP/1.0 200 OK" "text/html"
                    ("<html>" ++ CRLF ++
                     "<head><title></title></head>" ++ CRLF ++
                     "<body>" ++ CRLF ++
                     "<ul>" ++ CRLF ++
                     String TAB "<li><a href=" ++ DQ ++ "a.txt" ++ DQ ++ ">a.txt</a></li>" ++ CRLF ++
                     String TAB "<li><a href=" ++ DQ ++ "b/" ++ DQ ++ ">b/</a></li>" ++ CRLF ++
                     "</ul>" ++ CRLF ++ "</body>" ++ CRLF ++ "</html>" ++ CRLF);
          closed := true |}.
Proof. split; vm_compute; reflexivity. Qed.

(** C6. The same directory requested without the final slash: it has the
    entries [a.txt], a regular file, and [b], a directory, and no
    [index.html], and the page that is sent lists neither. *)
Theorem listing_without_slash :
  directory_iterator demo_fs "www/subdir" = ["a.txt"; "b"] /\
  is_regular_file demo_fs "www/subdir/a.txt" = true /\
  is_directory demo_fs "www/subdir/b" = true /\
  handleClient demo_fs (connect "GET /subdir HTTP/1.0") "www" =
  Some {| inbox := "GET /subdir HTTP/1.0";
          sent := framed "HTTP/1.0 200 OK" "text/html"
                    ("<html>" ++ CRLF ++
                     "<head><title></title></head>" ++ CRLF ++
                     "<body>" ++ CRLF ++
                     "<ul>" ++ CRLF ++
                     "</ul>" ++ CRLF ++ "</body>" ++ CRLF ++ "</html>" ++ CRLF);
          closed := true |}.
Proof. repeat split; vm_compute; reflexivity. Qed.

(** An entry that is neither a regular file nor a directory is not
    listed, with or without the slash. *)
Lemma listing_special_entry :
  directory_iterator demo_fs "www/dev/" = ["null"] /\
  listing_page demo_fs "www/dev/" ["null"] = listing_page demo_fs "www/dev/" [].
Proof. split; vm_compute; reflexivity. Qed.

End ServeFacts.

(** * More about the bounded buffer *)

Module BufferMore.
Import Buffer Counting BufferFacts.

Local Open Scope Z_scope.

(** ** Counting under an update *)

Lemma count_pc_insert f (ths : list pc) : forall (t : nat) p q,
  ths !! t = Some p ->
  (count_pc f (<[t := q]> ths) + (if f p then 1 else 0)
   = count_pc f ths + (if f q then 1 else 0))%nat.
Proof.
  induction ths as [|r ths IH]; intros [|t] p q H; simpl in *; try discriminate.
  - injection H as ->. lia.
  - specialize (IH t p q H). lia.
Qed.

Lemma count_pc_existsb f (ths : list pc) :
  existsb f ths = false -> count_pc f ths = O.
Proof.
  induction ths as [|r ths IH]; simpl; [reflexivity|].
  intros H. apply orb_false_iff in H as [-> H]. rewrite IH by exact H. reflexivity.
Qed.

Lemma count_pc_lookup f (ths : list pc) : forall (t : nat) p,
  ths !! t = Some p -> f p = true -> (0 < count_pc f ths)%nat.
Proof.
  induction ths as [|r ths IH]; intros [|t] p H Hp; simpl in *; try discriminate.
  - injection H as ->. rewrite Hp. lia.
  - specialize (IH t p H Hp). lia.
Qed.

Lemma count_pc_replicate f n : f Idle = false -> count_pc f (replicate n Idle) = O.
Proof. intros H. induction n as [|n IH]; simpl; [reflexivity|]. rewrite H, IH. reflexivity. Qed.

(** The two ways a notification goes. *)
Lemma notify_one_cases waits w (ths ths' : list pc) :
  notify_one waits w ths = Some ths' ->
  (exists (u : nat) p, w = Some u /\ ths !! u = Some p /\ waits p = true /\
                       ths' = <[u := woken p]> ths)
  \/ (w = None /\ count_pc waits ths = O /\ ths' = ths).
Proof.
  unfold notify_one. destruct w as [u|].
  - destruct (ths !! u) as [p|] eqn:Hu; [|discriminate].
    destruct (waits p) eqn:Hp; [|discriminate].
    intros H. injection H as <-. left. exists u, p. auto.
  - destruct (existsb waits ths) eqn:He; [discriminate|].
    intros H. injection H as <-. right. auto using count_pc_existsb.
Qed.

(** The four counts after the program counter of [t] has gone from [p] to [q]. *)
Ltac recount_one f Ht q :=
  let H := fresh "Hc" in
  pose proof (count_pc_insert f _ _ _ q Ht) as H;
  cbn [waits_data get_running waits_space put_running] in H.

Ltac recount Ht q :=
  recount_one waits_data Ht q; recount_one get_running Ht q;
  recount_one waits_space Ht q; recount_one put_running Ht q.

Lemma init_awake C n : Awake (init C n).
Proof.
  constructor; simpl.
  - rewrite count_pc_replicate by reflexivity. lia.
  - rewrite count_pc_replicate by reflexivity. lia.
  - exists 0. lia.
Qed.

Lemma divide_shift C x y : (C | x) -> y = x \/ y = x - C \/ y = x + C -> (C | y).
Proof.
  intros [k Hk] [-> | [-> | ->]].
  - exists k. exact Hk.
  - exists (k - 1). lia.
  - exists (k + 1). lia.
Qed.

Lemma step_awake C a s tr s' e :
  1 <= C <= INT_MAX -> Inv C s tr -> Awake s -> step a s = Ok s' e -> Awake s'.
Proof.
  intros HC [Hcap Hcnt Hlen Hhd Htl Hown Hput Hget Hfifo] [Hag Hap Hring] Hstep.
  destruct a as [t x|t|t|t|t|t w]; simpl in Hstep.
  - destruct (threads s !! t) as [[]|] eqn:Ht; try discriminate.
    injection Hstep as <- <-. recount Ht (PutLock x).
    constructor; simpl; [lia|lia|exact Hring].
  - destruct (threads s !! t) as [[]|] eqn:Ht; try discriminate.
    injection Hstep as <- <-. recount Ht GetLock.
    constructor; simpl; [lia|lia|exact Hring].
  - destruct (m s); [discriminate|].
    destruct (threads s !! t) as [[]|] eqn:Ht; try discriminate;
      injection Hstep as <- <-.
    + recount Ht (PutTest x).
      constructor; simpl; [lia|lia|exact Hring].
    + recount Ht GetTest.
      constructor; simpl; [lia|lia|exact Hring].
  - destruct (threads s !! t) as [[]|] eqn:Ht; try discriminate.
    + destruct (Z.eqb_spec (count (obj s)) (capacity (obj s)));
        injection Hstep as <- <-.
      * recount Ht (PutWait x).
        constructor; simpl; [lia|lia|exact Hring].
      * recount Ht (PutBody x).
        constructor; simpl; [lia|lia|exact Hring].
    + destruct (Z.eqb_spec (count (obj s)) 0);
        injection Hstep as <- <-.
      * recount Ht GetWait.
        constructor; simpl; [lia|lia|exact Hring].
      * recount Ht GetBody.
        constructor; simpl; [lia|lia|exact Hring].
  - destruct (threads s !! t) as [[]|] eqn:Ht; try discriminate;
      injection Hstep as <- <-.
    + recount Ht (PutLock x).
      constructor; simpl; [lia|lia|exact Hring].
    + recount Ht GetLock.
      constructor; simpl; [lia|lia|exact Hring].
  - destruct (threads s !! t) as [[]|] eqn:Ht; try discriminate.
    + (* the critical section of putItem *)
      destruct (notify_one waits_data w (threads s)) as [ths|] eqn:Hn; [|discriminate].
      injection Hstep as <- <-.
      pose proof (Hput _ _ Ht) as Hne.
      destruct (putItem_locked_inv C (obj s) x HC Hcap Hcnt Hne Hlen Hhd)
        as (Hcap' & Hcnt' & Hlen' & Hhd' & Htl' & Hbuf').
      assert (Hhead : head (putItem_locked (obj s) x) = head (obj s) + 1
                      \/ head (putItem_locked (obj s) x) = head (obj s) + 1 - C).
      { simpl. unfold INT_MAX in HC. rewrite wrap_small by lia.
        destruct (Z.eqb_spec (head (obj s) + 1) (capacity (obj s))); lia. }
      assert (Hring' : (capacity (putItem_locked (obj s) x)
                        | head (putItem_locked (obj s) x)
                          - tail (putItem_locked (obj s) x)
                          - count (putItem_locked (obj s) x))).
      { rewrite Hcap', Htl', Hcnt'. rewrite Hcap in Hring.
        eapply divide_shift; [exact Hring|]. lia. }
      apply notify_one_cases in Hn as [(u & p & -> & Hu & Hp & ->)|(-> & Hz & ->)].
      * destruct p; try discriminate. simpl woken.
        assert (Hne' : u <> t) by (intros ->; congruence).
        assert (Ht' : <[u := GetLock]> (threads s) !! t = Some (PutBody x))
          by (rewrite list_lookup_insert_ne by exact Hne'; exact Ht).
        recount Hu GetLock. recount Ht' Idle.
        constructor; simpl threads; simpl obj; [lia|lia|exact Hring'].
      * recount Ht Idle.
        constructor; simpl threads; simpl obj; [lia|lia|exact Hring'].
    + (* the critical section of getItem *)
      pose proof (Hget _ Ht) as Hne.
      destruct (getItem_locked_inv C (obj s) HC Hcap Hcnt Hne Hlen Htl)
        as (item & b' & Hg & Hcap' & Hcnt' & Hlen' & Htl' & Hhd' & Hbuf').
      assert (Htail : tail b' = tail (obj s) + 1 \/ tail b' = tail (obj s) + 1 - C).
      { unfold getItem_locked in Hg. destruct (buffer (obj s)); [discriminate|].
        injection Hg as _ <-. simpl. unfold INT_MAX in HC.
        rewrite wrap_small by lia.
        destruct (Z.eqb_spec (tail (obj s) + 1) (capacity (obj s))); lia. }
      assert (Hring' : (capacity b' | head b' - tail b' - count b')).
      { rewrite Hcap', Hhd', Hcnt'. rewrite Hcap in Hring.
        eapply divide_shift; [exact Hring|]. lia. }
      rewrite Hg in Hstep.
      destruct (notify_one waits_space w (threads s)) as [ths|] eqn:Hn; [|discriminate].
      injection Hstep as <- <-.
      apply notify_one_cases in Hn as [(u & p & -> & Hu & Hp & ->)|(-> & Hz & ->)].
      * destruct p; try discriminate. simpl woken.
        assert (Hne' : u <> t) by (intros ->; congruence).
        assert (Ht' : <[u := PutLock x]> (threads s) !! t = Some GetBody)
          by (rewrite list_lookup_insert_ne by exact Hne'; exact Ht).
        recount Hu (PutLock x). recount Ht' Idle.
        constructor; simpl threads; simpl obj; [lia|lia|exact Hring'].
      * recount Ht Idle.
        constructor; simpl threads; simpl obj; [lia|lia|exact Hring'].
Qed.

Lemma run_awake C sched : forall s tr s' tr',
  1 <= C <= INT_MAX -> Inv C s tr -> Awake s ->
  run sched s tr = Ok s' tr' -> Awake s'.
Proof.
  induction sched as [|a sched IH]; intros s tr s' tr' HC Hinv Haw Hrun;
    simpl in Hrun.
  - injection Hrun as <- <-. exact Haw.
  - destruct (step a s) as [s1 e| |] eqn:Hstep; try discriminate.
    eapply IH; [exact HC| | |exact Hrun].
    + eapply step_inv; eauto.
    + eapply step_awake; eauto.
Qed.

(** ** A buffer of capacity 0 *)

Lemma init_shut n : Shut (init 0 n) [].
Proof.
  constructor; simpl; try reflexivity; intros t; intros; intros H;
    apply lookup_replicate in H as [? _]; discriminate.
Qed.

Lemma step_shut a s tr s' e :
  Shut s tr -> step a s = Ok s' e -> Shut s' (tr ++ e).
Proof.
  intros [Hcap Hcnt Hbuf Hput Hget Htr] Hstep.
  destruct a as [t x|t|t|t|t|t w]; simpl in Hstep.
  - destruct (threads s !! t) as [[]|] eqn:Ht; try discriminate.
    injection Hstep as <- <-. subst tr.
    constructor; simpl; trivial.
    + intros u y Hu. updated Hu. exact (Hput _ _ Hu).
    + intros u Hu. updated Hu. exact (Hget _ Hu).
  - destruct (threads s !! t) as [[]|] eqn:Ht; try discriminate.
    injection Hstep as <- <-. subst tr.
    constructor; simpl; trivial.
    + intros u y Hu. updated Hu. exact (Hput _ _ Hu).
    + intros u Hu. updated Hu. exact (Hget _ Hu).
  - destruct (m s); [discriminate|].
    destruct (threads s !! t) as [[]|] eqn:Ht; try discriminate;
      injection Hstep as <- <-; subst tr;
      constructor; simpl; trivial.
    + intros u y Hu. updated Hu. exact (Hput _ _ Hu).
    + intros u Hu. updated Hu. exact (Hget _ Hu).
    + intros u y Hu. updated Hu. exact (Hput _ _ Hu).
    + intros u Hu. updated Hu. exact (Hget _ Hu).
  - rewrite Hcnt, Hcap in Hstep. simpl in Hstep.
    destruct (threads s !! t) as [[]|] eqn:Ht; try discriminate;
      injection Hstep as <- <-; subst tr;
      constructor; simpl; trivial.
    + intros u y Hu. updated Hu. exact (Hput _ _ Hu).
    + intros u Hu. updated Hu. exact (Hget _ Hu).
    + intros u y Hu. updated Hu. exact (Hput _ _ Hu).
    + intros u Hu. updated Hu. exact (Hget _ Hu).
  - destruct (threads s !! t) as [[]|] eqn:Ht; try discriminate;
      injection Hstep as <- <-; subst tr;
      constructor; simpl; trivial.
    + intros u y Hu. updated Hu. exact (Hput _ _ Hu).
    + intros u Hu. updated Hu. exact (Hget _ Hu).
    + intros u y Hu. updated Hu. exact (Hput _ _ Hu).
    + intros u Hu. updated Hu. exact (Hget _ Hu).
  - destruct (threads s !! t) as [[]|] eqn:Ht; try discriminate.
    + exfalso. exact (Hput _ _ Ht).
    + exfalso. exact (Hget _ Ht).
Qed.

Lemma run_shut sched : forall s tr s' tr',
  Shut s tr -> run sched s tr = Ok s' tr' -> Shut s' tr'.
Proof.
  induction sched as [|a sched IH]; intros s tr s' tr' Hs Hrun; simpl in Hrun.
  - injection Hrun as <- <-. exact Hs.
  - destruct (step a s) as [s1 e| |] eqn:Hstep; try discriminate.
    eapply IH; [|exact Hrun]. eapply step_shut; eauto.
Qed.

(** ** Properties *)

(** X1. In every state reachable by any schedule, two threads that are
    inside a critical section of the buffer (past the lock of [putItem] or
    [getItem] and not in [wait]) are one and the same thread, and it owns
    the mutex. *)
Theorem mutual_exclusion (C : Z) (n : nat) (sched : list action)
    (s : state) (tr : list event) (t u : nat) (p q : pc) :
  1 <= C <= INT_MAX ->
  run sched (init C n) [] = Ok s tr ->
  threads s !! t = Some p -> holds p = true ->
  threads s !! u = Some q -> holds q = true ->
  t = u /\ m s = Some t.
Proof.
  intros HC Hrun Ht Hp Hu Hq.
  destruct (run_inv C sched _ _ _ _ HC (init_inv C n ltac:(lia)) Hrun)
    as [_ _ _ _ _ Hown _ _ _].
  pose proof (Hown _ _ Ht Hp) as H1. pose proof (Hown _ _ Hu Hq) as H2.
  split; [congruence|exact H1].
Qed.

Lemma mutual_exclusion_witness :
  exists s tr, run demo_sched (init 2 3) [] = Ok s tr /\
    threads s !! 0%nat = Some (PutBody 6) /\ m s = Some 0%nat.
Proof.
  eexists. eexists. split; [vm_compute; reflexivity|].
  split; [reflexivity|].
  eapply (mutual_exclusion 2 3 demo_sched _ _ 0%nat 0%nat (PutBody 6) (PutBody 6)).
  - unfold INT_MAX. lia.
  - vm_compute. reflexivity.
  - reflexivity.
  - reflexivity.
  - reflexivity.
  - reflexivity.
Defined.

(** X2. For a capacity C >= 1, no schedule makes [getItem] call [front()]
    or [pop()] on an empty queue: the run of a schedule is never undefined. *)
Theorem getItem_never_reads_empty (C : Z) (n : nat) (sched : list action) :
  1 <= C <= INT_MAX -> run sched (init C n) [] <> Undefined.
Proof.
  intros HC. apply (run_defined C); [exact HC|]. apply init_inv. lia.
Qed.

Lemma getItem_never_reads_empty_witness :
  run demo_sched (init 2 3) [] <> Undefined.
Proof.
  apply (getItem_never_reads_empty 2 3 demo_sched). unfold INT_MAX. lia.
Defined.

(** X3. The fields [head] and [tail] stay in [0, C), wrapping to 0 when
    they reach the capacity, and [head] is always [tail + count] modulo
    the capacity. *)
Theorem ring_indices (C : Z) (n : nat) (sched : list action)
    (s : state) (tr : list event) :
  1 <= C <= INT_MAX ->
  run sched (init C n) [] = Ok s tr ->
  0 <= head (obj s) < C /\ 0 <= tail (obj s) < C /\
  head (obj s) = (tail (obj s) + count (obj s)) mod C.
Proof.
  intros HC Hrun.
  pose proof (init_inv C n ltac:(lia)) as Hinit.
  destruct (run_awake C sched _ _ _ _ HC Hinit (init_awake C n) Hrun)
    as [_ _ [k Hk]].
  destruct (run_inv C sched _ _ _ _ HC Hinit Hrun)
    as [Hcap Hcnt Hlen Hhd Htl Hown Hput Hget Hfifo].
  split; [exact Hhd|]. split; [exact Htl|].
  rewrite Hcap in Hk.
  replace (tail (obj s) + count (obj s)) with (head (obj s) + (- k) * C) by lia.
  rewrite Z.mod_add by lia. rewrite Z.mod_small by lia. reflexivity.
Qed.

Lemma ring_indices_witness :
  exists s tr, run demo_sched (init 2 3) [] = Ok s tr /\
    0 <= head (obj s) < 2 /\ 0 <= tail (obj s) < 2 /\
    head (obj s) = (tail (obj s) + count (obj s)) mod 2.
Proof.
  eexists. eexists. split; [vm_compute; reflexivity|].
  eapply (ring_indices 2 3 demo_sched).
  - unfold INT_MAX. lia.
  - vm_compute. reflexivity.
Defined.

(** X4. No wake-up is lost. In every reachable state in which a thread is
    blocked in [data_available.wait], the number of stored items is at
    most the number of [getItem] calls that are under way and not blocked;
    in every reachable state in which a thread is blocked in
    [space_available.wait], the number of free slots is at most the number
    of [putItem] calls that are under way and not blocked. So a consumer
    never stays blocked beside an item that nobody is about to take, nor a
    producer beside a free slot that nobody is about to fill. *)
Theorem no_lost_wakeup (C : Z) (n : nat) (sched : list action)
    (s : state) (tr : list event) :
  1 <= C <= INT_MAX ->
  run sched (init C n) [] = Ok s tr ->
  ((0 < count_pc waits_data (threads s))%nat ->
   count (obj s) <= Z.of_nat (count_pc get_running (threads s))) /\
  ((0 < count_pc waits_space (threads s))%nat ->
   C - count (obj s) <= Z.of_nat (count_pc put_running (threads s))).
Proof.
  intros HC Hrun.
  pose proof (init_inv C n ltac:(lia)) as Hinit.
  destruct (run_awake C sched _ _ _ _ HC Hinit (init_awake C n) Hrun)
    as [Hg Hp _].
  destruct (run_inv C sched _ _ _ _ HC Hinit Hrun) as [Hcap _ _ _ _ _ _ _ _].
  rewrite Hcap in Hp. split; assumption.
Qed.

Lemma no_lost_wakeup_witness :
  exists s tr,
    run (firstn 11 demo_sched) (init 2 3) [] = Ok s tr /\
    threads s !! 0%nat = Some (PutWait 9) /\
    ((0 < count_pc waits_data (threads s))%nat ->
     count (obj s) <= Z.of_nat (count_pc get_running (threads s))) /\
    ((0 < count_pc waits_space (threads s))%nat ->
     2 - count (obj s) <= Z.of_nat (count_pc put_running (threads s))).
Proof.
  eexists. eexists. split; [vm_compute; reflexivity|].
  split; [reflexivity|].
  eapply (no_lost_wakeup 2 3 (firstn 11 demo_sched)).
  - unfold INT_MAX. lia.
  - vm_compute. reflexivity.
Defined.

(** X5. A buffer constructed with capacity 0 never takes or gives an item:
    under every schedule every [putItem] and every [getItem] ends up in its
    wait loop, nothing is inserted, nothing is returned. *)
Theorem capacity_zero_blocks (n : nat) (sched : list action)
    (s : state) (tr : list event) :
  run sched (init 0 n) [] = Ok s tr ->
  tr = [] /\ count (obj s) = 0 /\ buffer (obj s) = [] /\
  forall (t : nat) p, threads s !! t = Some p ->
    p <> GetBody /\ forall x, p <> PutBody x.
Proof.
  intros Hrun.
  destruct (run_shut sched _ _ _ _ (init_shut n) Hrun)
    as [Hcap Hcnt Hbuf Hput Hget Htr].
  repeat split; trivial.
  - intros ->. exact (Hget _ H).
  - intros x ->. exact (Hput _ _ H).
Qed.

Lemma capacity_zero_blocks_witness :
  exists s tr,
    run [CallPut 0 7; Acquire 0; Cond 0; CallGet 1; Acquire 1; Cond 1]
        (init 0 2) [] = Ok s tr /\
    threads s = [PutWait 7; GetWait] /\
    tr = [] /\ count (obj s) = 0 /\ buffer (obj s) = [] /\
    forall (t : nat) p, threads s !! t = Some p ->
      p <> GetBody /\ forall x, p <> PutBody x.
Proof.
  eexists. eexists. split; [vm_compute; reflexivity|].
  split; [reflexivity|].
  eapply (capacity_zero_blocks 2
            [CallPut 0 7; Acquire 0; Cond 0; CallGet 1; Acquire 1; Cond 1]).
  vm_compute. reflexivity.
Defined.

End BufferMore.

(** * More about the request pipeline *)

Module ServeMore.
Import Bytes Regex Serve Spec Net BytesFacts RegexFacts ServeFacts.

Local Open Scope string_scope.
Local Open Scope nat_scope.

(** ** Tokens *)

Lemma all_occurs f c s : all f s = true -> f c = false -> occurs c s = false.
Proof.
  induction s as [|d s IH]; simpl; intros H Hc; [reflexivity|].
  apply andb_true_iff in H as [Hd Hs].
  rewrite (IH Hs Hc), orb_false_r.
  destruct (Ascii.eqb_spec d c) as [->|]; [congruence|reflexivity].
Qed.

Lemma split_delim_none delim s :
  occurs delim s = false -> split_delim delim s = (s, None).
Proof.
  induction s as [|c s IH]; simpl; intros H; [reflexivity|].
  apply orb_false_iff in H as [Hc Hs]. rewrite Hc, (IH Hs). reflexivity.
Qed.

Lemma split_delim_app delim a b :
  occurs delim a = false -> split_delim delim (a ++ String delim b) = (a, Some b).
Proof.
  induction a as [|c a IH]; simpl; intros H.
  - rewrite Ascii.eqb_refl. reflexivity.
  - apply orb_false_iff in H as [Hc Ha]. rewrite Hc, (IH Ha). reflexivity.
Qed.

(** [getline] loses nothing: the token it extracts holds no delimiter,
    and the input is the token, followed by the delimiter and what is left
    in the stream when a delimiter was found, and the token alone when the
    end of the input was reached. *)
Lemma split_delim_round_trip delim s :
  occurs delim (fst (split_delim delim s)) = false /\
  s = fst (split_delim delim s) ++
      match snd (split_delim delim s) with
      | Some r => String delim r
      | None => ""
      end.
Proof.
  induction s as [|c s [IH1 IH2]]; simpl; [split; reflexivity|].
  destruct (Ascii.eqb_spec c delim) as [->|Hne]; simpl; [split; reflexivity|].
  destruct (split_delim delim s) as [tok r]; simpl in *.
  split.
  - rewrite IH1, orb_false_r. apply Ascii.eqb_neq. exact Hne.
  - f_equal. exact IH2.
Qed.

Lemma request_path_fields a b c :
  occurs " " a = false -> occurs " " b = false ->
  request_path (a ++ String " " (b ++ String " " c)) = b.
Proof.
  intros Ha Hb. unfold request_path, getline, istringstream_of. cbn [eofbit failbit rest orb].
  rewrite (split_delim_app _ _ _ Ha). cbn [eofbit failbit rest orb snd].
  rewrite (split_delim_app _ _ _ Hb). reflexivity.
Qed.

(** X8. A request buffer without any space character: the first [getline]
    reads it whole and reaches the end of the input, the second [getline]
    fails and leaves [filename] alone, so the path that is looked up under
    the root is the whole buffer. *)
Theorem request_path_without_space request :
  occurs " " request = false -> request_path request = request.
Proof.
  intros H. unfold request_path, getline, istringstream_of.
  cbn [eofbit failbit rest orb].
  rewrite (split_delim_none _ _ H). reflexivity.
Qed.

Lemma request_path_without_space_witness :
  validGET tab_request = true /\
  request_path ("GET" ++ String TAB "/x" ++ String TAB "HTTP/1.0")
  = "GET" ++ String TAB "/x" ++ String TAB "HTTP/1.0".
Proof.
  split; [vm_compute; reflexivity|].
  apply (request_path_without_space ("GET" ++ String TAB "/x" ++ String TAB "HTTP/1.0")).
  vm_compute. reflexivity.
Defined.

(** ** Validation *)

(** X6. [validGET] accepts a buffer exactly when it contains, anywhere, a
    substring [GET<ws><path><ws>HTTP/<digit>.<digit>] with the path over
    word characters, '-', '.' and '/' (possibly empty) and each [<ws>] one
    whitespace character. *)
Theorem validGET_accepts_exactly request :
  validGET request = true <->
  exists m, request_line is_space m /\ contains request m.
Proof. apply validGET_spec. Qed.

(** X7. A request line [GET <path> HTTP/<d>.<d>] with single spaces, a path
    over word characters, '-', '.' and '/', and anything after it, is
    accepted, and the path looked up is the root followed by that path as
    it stands: segments such as [..] are not touched. *)
Theorem request_resolved_verbatim path d1 d2 tail :
  all path_class path = true -> is_digit d1 = true -> is_digit d2 = true ->
  validGET ("GET " ++ path ++ " HTTP/" ++ String d1 (String "." (String d2 tail)))
  = true /\
  request_path ("GET " ++ path ++ " HTTP/" ++ String d1 (String "." (String d2 tail)))
  = path.
Proof.
  intros Hpath Hd1 Hd2. split.
  - apply validGET_spec.
    exists ("GET" ++ String " " path ++ String " " "HTTP/"
                  ++ String d1 (String "." (String d2 ""))).
    split.
    + exists " "%char, path, " "%char, d1, d2. repeat split; assumption.
    + exists "", tail. simpl. rewrite append_assoc. reflexivity.
  - change ("GET " ++ path ++ " HTTP/" ++ String d1 (String "." (String d2 tail)))
      with ("GET" ++ String " " (path ++ String " "
              ("HTTP/" ++ String d1 (String "." (String d2 tail))))).
    apply request_path_fields; [reflexivity|].
    apply (all_occurs path_class); [exact Hpath|reflexivity].
Qed.

Lemma request_resolved_verbatim_witness :
  validGET ("GET /../etc/passwd HTTP/1.1" ++ CRLF) = true /\
  request_path ("GET /../etc/passwd HTTP/1.1" ++ CRLF) = "/../etc/passwd".
Proof.
  apply (request_resolved_verbatim "/../etc/passwd" "1"%char "1"%char CRLF);
    reflexivity.
Defined.

(** ** Sending *)

(** X9. For a regular file that opens, of any size, the empty file and
    the sizes that are multiples of the 4096-byte chunk included,
    [sendFile] returns, and what it has sent is exactly the bytes of the
    file followed by CRLF. *)
Theorem sendFile_sends_whole_file fs s filename :
  is_regular_file fs filename = true ->
  ifstream_good fs filename = true ->
  is_directory fs filename = false ->
  sendFile fs s filename =
  Some {| inbox := inbox s;
          sent := sent s ++ file_bytes fs filename ++ CRLF;
          closed := closed s |}.
Proof. intros _ Hg Hd. apply sendFile_total; assumption. Qed.

Lemma sendFile_sends_whole_file_witness :
  sendFile demo_fs (connect "") "www/index.html" =
  Some {| inbox := ""; sent := text42 ++ CRLF; closed := false |}.
Proof.
  apply (sendFile_sends_whole_file demo_fs (connect "") "www/index.html");
    reflexivity.
Defined.

(** A path that does not open, and a directory: the loop of [sendFile]
    never ends, however long it runs. *)
Lemma sendFile_never_returns fs s filename fuel :
  ifstream_good fs filename = false \/ is_directory fs filename = true ->
  sendFile_loop fuel (ifstream_open fs filename) s = None.
Proof.
  intros H. apply sendFile_loop_failed; [reflexivity|].
  cbn [ifstream_open failed]. destruct H as [-> | ->]; [reflexivity|apply orb_true_r].
Qed.

Lemma sendData_loop_app rets : forall data wire,
  match sendData_loop rets data wire with
  | Delivered w => w = wire ++ data
  | Raised w => exists a b, data = a ++ b /\ b <> "" /\ w = wire ++ a
  | Looping w todo => todo <> "" /\ w ++ todo = wire ++ data
  end.
Proof.
  induction rets as [|r rets IH]; intros data wire.
  - destruct data; simpl; [rewrite append_nil_r; reflexivity|].
    split; [discriminate|reflexivity].
  - destruct data as [|c data]; [simpl; rewrite append_nil_r; reflexivity|].
    cbn [sendData_loop]. destruct (r =? -1)%Z.
    + exists "", (String c data). repeat split; [discriminate|].
      rewrite append_nil_r. reflexivity.
    + set (k := Z.to_nat r).
      specialize (IH (drop k (String c data)) (wire ++ take k (String c data))).
      destruct (sendData_loop rets (drop k (String c data))
                  (wire ++ take k (String c data))) as [w|w|w todo].
      * rewrite IH, append_assoc, take_drop. reflexivity.
      * destruct IH as (a & b & Hd & Hb & ->).
        exists (take k (String c data) ++ a), b.
        repeat split; [|exact Hb|rewrite append_assoc; reflexivity].
        rewrite append_assoc, <- Hd, take_drop. reflexivity.
      * destruct IH as [Hl ->]. split; [exact Hl|].
        rewrite append_assoc, take_drop. reflexivity.
Qed.

(** X10. However [send] splits the data, [sendData] puts it on the wire
    in order and without repeating a byte: when it returns, all of [data]
    has gone out; when it throws, a proper prefix of it has; and as long
    as it loops, what has gone out and what is left make up [data]. *)
Theorem sendData_in_order rets data wire :
  match sendData_loop rets data wire with
  | Delivered w => w = wire ++ data
  | Raised w => exists a b, data = a ++ b /\ b <> "" /\ w = wire ++ a
  | Looping w todo => todo <> "" /\ w ++ todo = wire ++ data
  end.
Proof. apply sendData_loop_app. Qed.

(** X11. When every call of [send] takes at least one byte and none
    fails, [sendData] returns after at most as many calls as there are
    bytes, with all of the data sent: this is the [sendData] of the
    pipeline. *)
Theorem sendData_delivers rets : forall data wire,
  Forall (fun r => (1 <= r)%Z) rets ->
  String.length data <= length rets ->
  sendData_loop rets data wire = Delivered (wire ++ data).
Proof.
  induction rets as [|r rets IH]; intros data wire Hr Hlen.
  - destruct data; simpl in *; [rewrite append_nil_r; reflexivity|lia].
  - destruct data as [|c data]; [simpl; rewrite append_nil_r; reflexivity|].
    apply Forall_cons in Hr as [Hr1 Hr].
    cbn [sendData_loop]. destruct (Z.eqb_spec r (-1)); [lia|].
    rewrite IH; [|exact Hr|].
    + rewrite append_assoc, take_drop. reflexivity.
    + rewrite length_drop. simpl in *. lia.
Qed.

Lemma sendData_delivers_witness :
  sendData_loop [3; 1; 1; 7; 2]%Z "hello" "" = Delivered "hello".
Proof.
  apply (sendData_delivers [3; 1; 1; 7; 2]%Z "hello" "").
  - repeat constructor; lia.
  - simpl. lia.
Defined.

(** ** Responses *)

(** X12. A valid request for a path that cannot be opened and is no
    directory is answered with the 404 line, [Content-Type: text/html],
    [Content-Length: 104], a blank line, the fixed error page of 104
    bytes and CRLF; the socket is left as it was, not closed. *)
Theorem not_found_response fs sock root :
  validGET (receiveData sock BUFFER_SIZE) = true ->
  fileExists fs (root ++ request_path (receiveData sock BUFFER_SIZE)) = false ->
  isDirectory fs (root ++ request_path (receiveData sock BUFFER_SIZE)) = false ->
  String.length error_page = 104 /\
  handleClient fs sock root =
  Some {| inbox := inbox sock;
          sent := sent sock ++ "HTTP/1.0 404 NOT FOUND" ++ CRLF ++
                  "Content-Type: text/html" ++ CRLF ++
                  "Content-Length: 104" ++ CRLF ++ CRLF ++
                  error_page ++ CRLF;
          closed := closed sock |}.
Proof.
  intros Hv He Hd. split; [reflexivity|].
  rewrite handleClient_not_found by assumption.
  unfold sendError, sendNotFound, sendData. cbn [inbox sent closed].
  f_equal. f_equal. rewrite append_assoc. reflexivity.
Qed.

Lemma not_found_response_witness :
  String.length error_page = 104 /\
  handleClient demo_fs (connect "GET /missing.txt HTTP/1.1") "www" =
  Some {| inbox := "GET /missing.txt HTTP/1.1";
          sent := "HTTP/1.0 404 NOT FOUND" ++ CRLF ++
                  "Content-Type: text/html" ++ CRLF ++
                  "Content-Length: 104" ++ CRLF ++ CRLF ++
                  error_page ++ CRLF;
          closed := false |}.
Proof.
  apply (not_found_response demo_fs (connect "GET /missing.txt HTTP/1.1") "www");
    vm_compute; reflexivity.
Defined.

(** X13. Whenever [handleClient] returns, what it has sent begins with
    exactly one of the three status lines, always of version HTTP/1.0; it
    has left the input alone; and it has closed the socket when the status
    is 200 and left it as it was otherwise. *)
Theorem handleClient_answers fs sock root s' :
  handleClient fs sock root = Some s' ->
  exists status rest,
    In status [ "HTTP/1.0 400 BAD REQUEST"; "HTTP/1.0 404 NOT FOUND";
                "HTTP/1.0 200 OK" ] /\
    sent s' = sent sock ++ status ++ CRLF ++ rest /\
    inbox s' = inbox sock /\
    closed s' = (String.eqb status "HTTP/1.0 200 OK" || closed sock)%bool.
Proof.
  rewrite handleClient_eq. cbv zeta.
  set (path := root ++ request_path (receiveData sock BUFFER_SIZE)).
  destruct (validGET (receiveData sock BUFFER_SIZE)); cbn [negb].
  2:{ intros H. injection H as <-.
      exists "HTTP/1.0 400 BAD REQUEST", "".
      split; [simpl; tauto|]. split; [|split; reflexivity].
      unfold sendBad. rewrite sent_sendData, append_nil_r. reflexivity. }
  assert (Hok : forall s0 rest0,
             sent s0 = sent sock ++ "HTTP/1.0 200 OK" ++ CRLF ++ rest0 ->
             inbox s0 = inbox sock ->
             Some (close s0) = Some s' ->
             exists status rest,
               In status [ "HTTP/1.0 400 BAD REQUEST"; "HTTP/1.0 404 NOT FOUND";
                           "HTTP/1.0 200 OK" ] /\
               sent s' = sent sock ++ status ++ CRLF ++ rest /\
               inbox s' = inbox sock /\
               closed s' = (String.eqb status "HTTP/1.0 200 OK" || closed sock)%bool).
  { intros s0 rest0 Hs Hi H. injection H as <-.
    exists "HTTP/1.0 200 OK", rest0.
    split; [simpl; tauto|]. split; [exact Hs|]. split; [exact Hi|reflexivity]. }
  assert (Hfile : forall p,
             match
               (if sendHeader_returns fs p
                then sendFile fs (sendHeader fs (sendOK sock) p) p
                else None)
             with
             | Some s => Some (close s)
             | None => None
             end = Some s' ->
             exists status rest,
               In status [ "HTTP/1.0 400 BAD REQUEST"; "HTTP/1.0 404 NOT FOUND";
                           "HTTP/1.0 200 OK" ] /\
               sent s' = sent sock ++ status ++ CRLF ++ rest /\
               inbox s' = inbox sock /\
               closed s' = (String.eqb status "HTTP/1.0 200 OK" || closed sock)%bool).
  { intros p. destruct (sendHeader_returns fs p); [|discriminate].
    destruct (ifstream_good fs p) eqn:Hg; [|rewrite sendFile_spins by auto; discriminate].
    destruct (is_directory fs p) eqn:Hnd; [rewrite sendFile_spins by auto; discriminate|].
    rewrite (sendFile_total _ _ _ Hg Hnd), sendHeader_eq.
    destruct (regex_search p rgx);
      eapply Hok; try reflexivity;
      unfold sendOK; rewrite !sent_sendData, !append_assoc; reflexivity. }
  destruct (isDirectory fs path) eqn:Hd.
  - rewrite andb_false_r, (sendHTML_directory _ _ _ Hd).
    destruct (has_index (directory_iterator fs path)); cbv zeta.
    + apply Hfile.
    + eapply Hok; [|reflexivity].
      unfold sendOK. rewrite !sent_sendData, !append_assoc. reflexivity.
  - destruct (fileExists fs path) eqn:He; cbn [negb andb].
    + apply Hfile.
    + intros H. injection H as <-.
      exists "HTTP/1.0 404 NOT FOUND". eexists.
      split; [simpl; tauto|]. split; [|split; reflexivity].
      unfold sendError, sendNotFound. rewrite !sent_sendData, !append_assoc.
      reflexivity.
Qed.

Lemma handleClient_answers_witness :
  exists status rest,
    In status [ "HTTP/1.0 400 BAD REQUEST"; "HTTP/1.0 404 NOT FOUND";
                "HTTP/1.0 200 OK" ] /\
    "HTTP/1.0 404 NOT FOUND" ++ CRLF ++
      "Content-Type: text/html" ++ CRLF ++
      "Content-Length: 104" ++ CRLF ++ CRLF ++ error_page ++ CRLF
    = "" ++ status ++ CRLF ++ rest /\
    "GET /missing.txt HTTP/1.1" = "GET /missing.txt HTTP/1.1" /\
    false = (String.eqb status "HTTP/1.0 200 OK" || false)%bool.
Proof.
  apply (handleClient_answers demo_fs (connect "GET /missing.txt HTTP/1.1") "www"
           {| inbox := "GET /missing.txt HTTP/1.1";
              sent := "HTTP/1.0 404 NOT FOUND" ++ CRLF ++
                      "Content-Type: text/html" ++ CRLF ++
                      "Content-Length: 104" ++ CRLF ++ CRLF ++ error_page ++ CRLF;
              closed := false |}).
  vm_compute. reflexivity.
Defined.

(** ** The content type *)

Lemma take_while_all f w r :
  all f w = true -> take_while f (w ++ r) = w ++ take_while f r.
Proof.
  induction w as [|c w IH]; simpl; intros H; [reflexivity|].
  apply andb_true_iff in H as [-> H]. rewrite (IH H). reflexivity.
Qed.

Lemma take_while_split f s :
  all f (take_while f s) = true /\ exists r, s = take_while f s ++ r.
Proof.
  induction s as [|c s [IH1 [r IH2]]]; simpl.
  - split; [reflexivity|]. exists "". reflexivity.
  - destruct (f c) eqn:Hc; simpl.
    + rewrite Hc, IH1. split; [reflexivity|]. exists r. f_equal. exact IH2.
    + split; [reflexivity|]. exists (String c s). reflexivity.
Qed.

Lemma regex_search_found s r m :
  longest_prefix r s = Some m -> regex_search s r = Some m.
Proof. intros H. destruct s; simpl in *; rewrite H; reflexivity. Qed.

Lemma rgx_at_dot tail :
  longest_prefix rgx (String "." tail) = Some (String "." (take_while is_word tail)).
Proof.
  destruct (take_while_split is_word tail) as [Hall [r Hr]].
  assert (Hm' : Matches rgx (String "." (take_while is_word tail))).
  { apply rgx_Matches. eauto. }
  assert (Hs' : String "." tail = String "." (take_while is_word tail) ++ r).
  { simpl. f_equal. exact Hr. }
  destruct (longest_prefix_complete _ _ _ _ Hm' Hs') as [m Hm].
  rewrite Hm. f_equal.
  pose proof (longest_prefix_longest _ _ _ _ _ Hm Hm' Hs') as Hlen.
  destruct (longest_prefix_sound _ _ _ Hm) as [Hmm [r' Hs]].
  apply rgx_Matches in Hmm as (w & -> & Hw).
  simpl in Hs. injection Hs as Hs. f_equal.
  pose proof (take_while_all is_word w r' Hw) as Htw. rewrite <- Hs in Htw.
  rewrite Htw in Hlen |- *. simpl in Hlen. rewrite length_append in Hlen.
  destruct (take_while is_word r') as [|c x]; simpl in Hlen;
    [rewrite append_nil_r; reflexivity|lia].
Qed.

Lemma rgx_first_dot pre tail :
  occurs "." pre = false ->
  regex_search (pre ++ String "." tail) rgx
  = Some (String "." (take_while is_word tail)).
Proof.
  intros Hpre. induction pre as [|c pre IH]; simpl append.
  - apply regex_search_found, rgx_at_dot.
  - simpl in Hpre. apply orb_false_iff in Hpre as [Hc Hpre].
    rewrite regex_search_skip; [auto|].
    intros m r Hs Hm. apply rgx_Matches in Hm as (w & -> & _).
    simpl in Hs. injection Hs as -> _.
    rewrite Ascii.eqb_refl in Hc. discriminate.
Qed.

(** X14. For a path with a dot, [sendHeader] picks the content type from
    the first dot of the whole path (root included) and the word
    characters right after it, wherever that dot stands: the headers are
    [Content-Type] for that extension-like piece and [Content-Length] of
    the file's size. *)
Theorem sendHeader_first_dot fs s pre tail :
  occurs "." pre = false ->
  sendHeader fs s (pre ++ "." ++ tail) =
  {| inbox := inbox s;
     sent := sent s ++
             "Content-Type: " ++ content_type (take_while is_word tail) ++ CRLF ++
             "Content-Length: " ++ to_string (file_size fs (pre ++ "." ++ tail)) ++ CRLF ++
             CRLF;
     closed := closed s |}.
Proof.
  intros Hpre. rewrite sendHeader_eq.
  change (pre ++ "." ++ tail) with (pre ++ String "." tail).
  rewrite (rgx_first_dot _ _ Hpre), header_type_extension. reflexivity.
Qed.

Lemma sendHeader_first_dot_witness :
  sendHeader demo_fs (connect "") "./www/index.html" =
  {| inbox := "";
     sent := "Content-Type: text/plain" ++ CRLF ++
             "Content-Length: 42" ++ CRLF ++ CRLF;
     closed := false |}.
Proof.
  apply (sendHeader_first_dot demo_fs (connect "") "" "/www/index.html").
  reflexivity.
Defined.

(** ** Directories *)





(** ** The receive buffer *)

Lemma take_app_length a b : take (String.length a) (a ++ b) = a.
Proof. induction a as [|c a IH]; simpl; [destruct b; reflexivity|]. rewrite IH. reflexivity. Qed.

(** X17. Only the first 2048 bytes that arrive are looked at: when they
    hold no request line, the answer is the 400 line whatever follows
    them, a well-formed request line included. *)
Theorem request_beyond_buffer fs sock root first tail :
  inbox sock = first ++ tail ->
  String.length first = BUFFER_SIZE ->
  validGET first = false ->
  handleClient fs sock root =
  Some {| inbox := inbox sock;
          sent := sent sock ++ "HTTP/1.0 400 BAD REQUEST" ++ CRLF;
          closed := closed sock |}.
Proof.
  intros Hin Hlen Hv. apply handleClient_bad.
  unfold receiveData. rewrite Hin, <- Hlen, take_app_length. exact Hv.
Qed.

Lemma request_beyond_buffer_witness :
  handleClient demo_fs (connect (filler 2048 ++ "GET /index.html HTTP/1.0")) "www" =
  Some {| inbox := filler 2048 ++ "GET /index.html HTTP/1.0";
          sent := "HTTP/1.0 400 BAD REQUEST" ++ CRLF;
          closed := false |}.
Proof.
  apply (request_beyond_buffer demo_fs
           (connect (filler 2048 ++ "GET /index.html HTTP/1.0")) "www"
           (filler 2048) "GET /index.html HTTP/1.0").
  - reflexivity.
  - vm_compute. reflexivity.
  - vm_compute. reflexivity.
Defined.

End ServeMore.
